(** * git-objects-viewer: the object decoder and the tree entry parser

    A shallow embedding of [parseGitObject] and [parseTreeObject] of
    [src/extension.js], together with the JavaScript and Node primitives
    the two functions call ([Buffer#indexOf], [Buffer#slice],
    [Buffer#toString], [String#split], [parseInt], [String#padEnd],
    [Array#join]), and of the two providers built on them,
    [GitObjectContentProvider] and [GitObjectTreeDataProvider], over a
    host that stands for [path], [fs] and [zlib].

    - A [Buffer] is a [list byte]; indices and lengths are [Z], so that
      the sentinel [-1] of [indexOf] is the one of the source.
    - A JavaScript string is the list of its UTF-16 code units, each a [N].
    - A JavaScript number is [NaN] or a mathematical integer ([jsnum]).
    - A promise settles to [Resolved v] or [Rejected err]. *)

From Stdlib Require Import List ZArith NArith Lia Bool.
From Stdlib Require Import Strings.String Strings.Ascii Strings.Byte.
From Stdlib Require DecimalNat.
Import ListNotations.

Local Open Scope Z_scope.

(** ** Buffers *)

Module Buffer.

Definition t := list byte.

Definition length (buf : t) : Z := Z.of_nat (List.length buf).

(** First index [>= i] scanning [buf], whose head sits at index [i]. *)
Fixpoint scan (value : byte) (buf : t) (i : Z) : Z :=
  match buf with
  | [] => -1
  | b :: rest => if Byte.eqb b value then i else scan value rest (i + 1)
  end.

(** [buf.indexOf(value, byteOffset)] for a numeric [value]: a negative
    offset counts from the end of the buffer, an offset past the end finds
    nothing. *)
Definition indexOf (buf : t) (value : byte) (byteOffset : Z) : Z :=
  let from :=
    if byteOffset <? 0 then Z.max (length buf + byteOffset) 0 else byteOffset in
  scan value (skipn (Z.to_nat from) buf) from.

(** Index normalisation of [slice]: negative indices count from the end,
    everything is clamped to [0 .. length]. *)
Definition clamp (len i : Z) : Z :=
  if i <? 0 then Z.max (len + i) 0 else Z.min i len.

(** [buf.slice(start, end)]. *)
Definition slice (buf : t) (start stop : Z) : t :=
  let s := clamp (length buf) start in
  let e := clamp (length buf) stop in
  firstn (Z.to_nat (e - s)) (skipn (Z.to_nat s) buf).

(** [buf.slice(start)]. *)
Definition sliceFrom (buf : t) (start : Z) : t :=
  slice buf start (length buf).

End Buffer.

(** ** Strings *)

Definition jsstring := list N.

(** A string literal of the source, all of whose characters are ASCII. *)
Fixpoint lit (s : string) : jsstring :=
  match s with
  | EmptyString => []
  | String a rest => N_of_ascii a :: lit rest
  end.

Fixpoint jsstring_eqb (a b : jsstring) : bool :=
  match a, b with
  | [], [] => true
  | x :: a', y :: b' => N.eqb x y && jsstring_eqb a' b'
  | _, _ => false
  end.

Local Open Scope N_scope.

Definition b2n (b : byte) : N := Byte.to_N b.

(** *** [Buffer#toString()]: UTF-8 decoding with replacement

    Every maximal ill-formed subsequence becomes one U+FFFD, and decoding
    resumes at the byte that broke the sequence; a sequence cut off by the
    end of the buffer becomes one U+FFFD. *)

Definition REPLACEMENT : N := 0xFFFD.

Definition inRange (lo hi x : N) : bool := (lo <=? x) && (x <=? hi).

(** Bounds on the first continuation byte, by lead byte. *)
Definition lowerBoundary (lead : N) : N :=
  if lead =? 0xE0 then 0xA0 else if lead =? 0xF0 then 0x90 else 0x80.
Definition upperBoundary (lead : N) : N :=
  if lead =? 0xED then 0x9F else if lead =? 0xF4 then 0x8F else 0xBF.

Definition addCont (codePoint c : N) : N :=
  N.lor (N.shiftl codePoint 6) (N.land c 0x3F).

Fixpoint utf8Decode (bytes : list byte) : list N :=
  match bytes with
  | [] => []
  | b :: r =>
    let x := b2n b in
    if x <=? 0x7F then x :: utf8Decode r
    else if inRange 0xC2 0xDF x then
      match r with
      | [] => [REPLACEMENT]
      | c1 :: r1 =>
        if inRange 0x80 0xBF (b2n c1)
        then addCont (N.land x 0x1F) (b2n c1) :: utf8Decode r1
        else REPLACEMENT :: utf8Decode r
      end
    else if inRange 0xE0 0xEF x then
      match r with
      | [] => [REPLACEMENT]
      | c1 :: r1 =>
        if inRange (lowerBoundary x) (upperBoundary x) (b2n c1) then
          match r1 with
          | [] => [REPLACEMENT]
          | c2 :: r2 =>
            if inRange 0x80 0xBF (b2n c2)
            then addCont (addCont (N.land x 0xF) (b2n c1)) (b2n c2)
                 :: utf8Decode r2
            else REPLACEMENT :: utf8Decode r1
          end
        else REPLACEMENT :: utf8Decode r
      end
    else if inRange 0xF0 0xF4 x then
      match r with
      | [] => [REPLACEMENT]
      | c1 :: r1 =>
        if inRange (lowerBoundary x) (upperBoundary x) (b2n c1) then
          match r1 with
          | [] => [REPLACEMENT]
          | c2 :: r2 =>
            if inRange 0x80 0xBF (b2n c2) then
              match r2 with
              | [] => [REPLACEMENT]
              | c3 :: r3 =>
                if inRange 0x80 0xBF (b2n c3)
                then addCont (addCont (addCont (N.land x 0x7) (b2n c1))
                                      (b2n c2)) (b2n c3)
                     :: utf8Decode r3
                else REPLACEMENT :: utf8Decode r2
              end
            else REPLACEMENT :: utf8Decode r1
          end
        else REPLACEMENT :: utf8Decode r
      end
    else REPLACEMENT :: utf8Decode r
  end.

(** The UTF-16 code units of a code point. *)
Definition utf16 (codePoint : N) : list N :=
  if codePoint <? 0x10000 then [codePoint]
  else [0xD800 + (codePoint - 0x10000) / 0x400;
        0xDC00 + (codePoint - 0x10000) mod 0x400].

Definition toString (buf : Buffer.t) : jsstring :=
  flat_map utf16 (utf8Decode buf).

(** *** [Buffer#toString("hex")] *)

Definition hexDigit (n : N) : N :=
  nth (N.to_nat n) (lit "0123456789abcdef") 0.

Definition toHex (buf : Buffer.t) : jsstring :=
  flat_map (fun b => [hexDigit (b2n b / 16); hexDigit (b2n b mod 16)]) buf.

(** *** [String#split(" ")], [String#padEnd], [Array#join] *)

Definition SPACE : N := 0x20.
Definition LF : N := 0x0A.

(** [s.split(" ")]: the pieces of [s] between consecutive spaces; never
    the empty array. *)
Fixpoint split (s : jsstring) : list jsstring :=
  match s with
  | [] => [[]]
  | c :: rest =>
    if c =? SPACE then [] :: split rest
    else match split rest with
         | piece :: pieces => (c :: piece) :: pieces
         | [] => [[c]]
         end
  end.

(** [s.padEnd(targetLength)], filling with spaces. *)
Definition padEnd (s : jsstring) (targetLength : nat) : jsstring :=
  s ++ repeat SPACE (targetLength - List.length s).

(** [pieces.join(sep)]. *)
Fixpoint join (sep : jsstring) (pieces : list jsstring) : jsstring :=
  match pieces with
  | [] => []
  | [p] => p
  | p :: rest => p ++ sep ++ join sep rest
  end.

(** *** [parseInt(string, 10)] *)

Inductive jsnum :=
| NaN
| Num (value : Z).

Definition jsnum_eqb (a b : jsnum) : bool :=
  match a, b with
  | Num x, Num y => Z.eqb x y
  | _, _ => false
  end.

(** WhiteSpace and LineTerminator code units, stripped by [parseInt]. *)
Definition isWhiteSpace (c : N) : bool :=
  inRange 0x09 0x0D c || (c =? 0x20) || (c =? 0xA0) || (c =? 0x1680)
  || inRange 0x2000 0x200A c || (c =? 0x2028) || (c =? 0x2029)
  || (c =? 0x202F) || (c =? 0x205F) || (c =? 0x3000) || (c =? 0xFEFF).

Fixpoint trimStart (s : jsstring) : jsstring :=
  match s with
  | c :: rest => if isWhiteSpace c then trimStart rest else s
  | [] => []
  end.

Definition isDigit (c : N) : bool := inRange 0x30 0x39 c.

(** The longest prefix of decimal digits. *)
Fixpoint digits (s : jsstring) : jsstring :=
  match s with
  | c :: rest => if isDigit c then c :: digits rest else []
  | [] => []
  end.

Definition mathInt (ds : jsstring) : Z :=
  fold_left (fun acc c => (10 * acc + Z.of_N (c - 0x30))%Z) ds 0%Z.

(** [undefined] is first converted to the string ["undefined"]. *)
Definition ToString (v : option jsstring) : jsstring :=
  match v with
  | Some s => s
  | None => lit "undefined"
  end.

(** The number is the mathematical value of the digits.  The source
    compares it with a buffer length, which is below 2^53: rounding to a
    double is monotone and leaves every integer below 2^53 unchanged, so
    the comparison on doubles and the one on integers agree; [-0] and [0]
    are both [Num 0], as [===] does not tell them apart. *)
Definition parseInt (v : option jsstring) : jsnum :=
  let str := trimStart (ToString v) in
  let sign :=
    match str with
    | c :: _ => if c =? 0x2D then (-1)%Z else 1%Z
    | [] => 1%Z
    end in
  let str :=
    match str with
    | c :: rest => if (c =? 0x2B) || (c =? 0x2D) then rest else str
    | [] => str
    end in
  match digits str with
  | [] => NaN
  | ds => Num (sign * mathInt ds)
  end.

Local Close Scope N_scope.

(** ** The object decoder: [parseGitObject] *)

Record JsError := Error { message : string }.

Inductive Promise (A : Type) :=
| Resolved (value : A)
| Rejected (reason : JsError).
Arguments Resolved {A} value.
Arguments Rejected {A} reason.

(** The object [{ type, size, content }] the promise resolves to. *)
Record GitObject := {
  type : jsstring;
  size : jsnum;
  content : Buffer.t
}.

(** Result of a Node-style callback API: [err] or the data. *)
Definition NodeResult := (JsError + Buffer.t)%type.

(** The two first tokens of the header text. *)
Definition typeToken (header : jsstring) : jsstring :=
  hd [] (split header).
Definition sizeToken (header : jsstring) : option jsstring :=
  nth_error (split header) 1.

(** The callback of [zlib.inflate]. *)
Definition inflateCallback (result : NodeResult) : Promise GitObject :=
  match result with
  | inl err => Rejected err
  | inr decompressedData =>
    let nullByteIndex := Buffer.indexOf decompressedData x00 0 in
    if nullByteIndex =? -1 then
      Rejected (Error "Invalid Git object format")
    else
      let header := toString (Buffer.slice decompressedData 0 nullByteIndex) in
      let content := Buffer.sliceFrom decompressedData (nullByteIndex + 1) in
      let type := typeToken header in
      let sizeStr := sizeToken header in
      let size := parseInt sizeStr in
      if negb (jsnum_eqb size (Num (Buffer.length content))) then
        Rejected (Error "Size mismatch")
      else
        Resolved {| type := type; size := size; content := content |}
  end.

(** The callback of [fs.readFile]; [inflate] stands for [zlib.inflate]. *)
Definition readFileCallback (inflate : Buffer.t -> NodeResult)
    (result : NodeResult) : Promise GitObject :=
  match result with
  | inl err => Rejected err
  | inr compressedData => inflateCallback (inflate compressedData)
  end.

Definition parseGitObject (readFile : string -> NodeResult)
    (inflate : Buffer.t -> NodeResult) (objectPath : string)
    : Promise GitObject :=
  readFileCallback inflate (readFile objectPath).

(** ** The tree entry parser: [parseTreeObject] *)

(** The four values an iteration of the loop computes for one entry. *)
Record TreeEntry := {
  mode : jsstring;
  typeStr : jsstring;
  hash : jsstring;
  name : jsstring
}.

(** The chain of comparisons that turns a mode into a readable type. *)
Definition typeStrOf (mode : jsstring) : jsstring :=
  if jsstring_eqb mode (lit "40000") then lit "tree"
  else if jsstring_eqb mode (lit "100644") then lit "blob"
  else if jsstring_eqb mode (lit "100755") then lit "blob (executable)"
  else if jsstring_eqb mode (lit "120000") then lit "symlink"
  else if jsstring_eqb mode (lit "160000") then lit "commit (submodule)"
  else lit "unknown".

(** The template literal pushed onto [entries]. *)
Definition entryLine (e : TreeEntry) : jsstring :=
  padEnd (mode e) 6 ++ lit " " ++ padEnd (typeStr e) 20 ++ lit " "
  ++ hash e ++ lit "    " ++ name e.

(** One pass through the body of the [while] loop, entered at [offset]. *)
Inductive Iteration :=
| Break
| Push (entry : TreeEntry) (offset : Z).

Definition loopBody (content : Buffer.t) (offset : Z) : Iteration :=
  let spaceIndex := Buffer.indexOf content x20 offset in
  if spaceIndex =? -1 then Break else
  let mode := toString (Buffer.slice content offset spaceIndex) in
  let offset := spaceIndex + 1 in
  let nullIndex := Buffer.indexOf content x00 offset in
  if nullIndex =? -1 then Break else
  let name := toString (Buffer.slice content offset nullIndex) in
  let offset := nullIndex + 1 in
  if offset + 20 >? Buffer.length content then Break else
  let hash := toHex (Buffer.slice content offset (offset + 20)) in
  let offset := offset + 20 in
  let typeStr := typeStrOf mode in
  Push {| mode := mode; typeStr := typeStr; hash := hash; name := name |}
       offset.

(** The [while] loop on the entries themselves; [None] when [fuel]
    iterations were not enough to leave the loop. *)
Fixpoint whileEntries (fuel : nat) (content : Buffer.t) (offset : Z)
    (entries : list TreeEntry) : option (list TreeEntry) :=
  match fuel with
  | O => None
  | S fuel' =>
    if offset <? Buffer.length content then
      match loopBody content offset with
      | Break => Some entries
      | Push entry offset' =>
        whileEntries fuel' content offset' (entries ++ [entry])
      end
    else Some entries
  end.

(** The [while] loop as the source has it: [entries] holds the lines. *)
Fixpoint whileLoop (fuel : nat) (content : Buffer.t) (offset : Z)
    (entries : list jsstring) : option (list jsstring) :=
  match fuel with
  | O => None
  | S fuel' =>
    if offset <? Buffer.length content then
      match loopBody content offset with
      | Break => Some entries
      | Push entry offset' =>
        whileLoop fuel' content offset' (entries ++ [entryLine entry])
      end
    else Some entries
  end.

(** Iterations that always suffice: every pass that goes round again has
    moved the cursor forward. *)
Definition enoughFuel (content : Buffer.t) : nat :=
  S (List.length content).

(** The array [entries] when the loop is left. *)
Definition treeEntries (content : Buffer.t) : option (list TreeEntry) :=
  whileEntries (enoughFuel content) content 0 [].

Definition parseTreeObject (content : Buffer.t) : option jsstring :=
  match whileLoop (enoughFuel content) content 0 [] with
  | Some entries => Some (join [LF] entries)
  | None => None
  end.

(** The loop without fuel, as a relation between the state on entry and
    the array on exit. *)
Inductive loopRuns (content : Buffer.t)
  : Z -> list TreeEntry -> list TreeEntry -> Prop :=
| runs_end offset entries :
    offset >= Buffer.length content ->
    loopRuns content offset entries entries
| runs_break offset entries :
    offset < Buffer.length content ->
    loopBody content offset = Break ->
    loopRuns content offset entries entries
| runs_push offset entries entry offset' result :
    offset < Buffer.length content ->
    loopBody content offset = Push entry offset' ->
    loopRuns content offset' (entries ++ [entry]) result ->
    loopRuns content offset entries result.

(** ** Tree payloads as the format lays them out *)

(** The three fields of an entry as they sit in a payload. *)
Record RawEntry := {
  rawMode : Buffer.t;
  rawName : Buffer.t;
  rawHash : Buffer.t
}.

(** Well-formed: a mode without space byte, a name without zero byte and
    a hash of exactly 20 bytes. *)
Definition wellFormed (r : RawEntry) : Prop :=
  ~ In x20 (rawMode r) /\ ~ In x00 (rawName r)
  /\ List.length (rawHash r) = 20%nat.

Definition encode (r : RawEntry) : Buffer.t :=
  rawMode r ++ x20 :: rawName r ++ x00 :: rawHash r.

Definition encodeAll (rs : list RawEntry) : Buffer.t :=
  flat_map encode rs.

(** The entry the loop body computes from the three fields. *)
Definition entryOf (r : RawEntry) : TreeEntry :=
  {| mode := toString (rawMode r);
     typeStr := typeStrOf (toString (rawMode r));
     hash := toHex (rawHash r);
     name := toString (rawName r) |}.

(** A tail on which a pass of the loop cannot read all three fields. *)
Inductive Truncated : Buffer.t -> Prop :=
| no_space t :
    ~ In x20 t -> Truncated t
| no_zero m u :
    ~ In x20 m -> ~ In x00 u -> Truncated (m ++ x20 :: u)
| short_hash m n h :
    ~ In x20 m -> ~ In x00 n -> (List.length h < 20)%nat ->
    Truncated (m ++ x20 :: n ++ x00 :: h).

(** An entry read off [content]: its three fields sit there, delimited. *)
Definition readFrom (content : Buffer.t) (e : TreeEntry) : Prop :=
  exists pre r rest,
    content = pre ++ encode r ++ rest /\ wellFormed r /\ e = entryOf r.

(** ** Outcomes of the decoder *)

Definition invalidFormat : JsError := Error "Invalid Git object format".
Definition sizeMismatch : JsError := Error "Size mismatch".

(** What the callback returns once the zero byte has been found. *)
Definition checked (hdr payload : Buffer.t) : Promise GitObject :=
  if jsnum_eqb (parseInt (sizeToken (toString hdr)))
               (Num (Buffer.length payload))
  then Resolved {| type := typeToken (toString hdr);
                   size := parseInt (sizeToken (toString hdr));
                   content := payload |}
  else Rejected sizeMismatch.

(** The four kinds the specification recognises; the source never tests
    the type token against them. *)
Definition isKnownKind (token : jsstring) : bool :=
  existsb (jsstring_eqb token)
    [lit "blob"; lit "tree"; lit "commit"; lit "tag"].

(** The modes the chain of comparisons tells apart. *)
Definition knownModes : list jsstring :=
  [lit "40000"; lit "100644"; lit "100755"; lit "120000"; lit "160000"].

Definition isLowerHexDigit (c : N) : bool :=
  inRange 0x30 0x39 c || inRange 0x61 0x66 c.

(** ** Sample inputs *)

Definition ascii_bytes (s : string) : Buffer.t := list_byte_of_string s.

Definition hello : Buffer.t := ascii_bytes "hello".
Definition blob5hello : Buffer.t := ascii_bytes "blob 5" ++ x00 :: hello.
Definition blob4hello : Buffer.t := ascii_bytes "blob 4" ++ x00 :: hello.
Definition blob3hello : Buffer.t := ascii_bytes "blob 3" ++ x00 :: hello.
Definition foo5hello : Buffer.t := ascii_bytes "foo 5" ++ x00 :: hello.
Definition blob5abc : Buffer.t := ascii_bytes "blob 5abc" ++ x00 :: hello.
Definition blobNoSpace : Buffer.t := ascii_bytes "blob" ++ x00 :: hello.

(** The bytes 0, 1, ..., 19. *)
Definition bytes0to19 : Buffer.t :=
  [x00; x01; x02; x03; x04; x05; x06; x07; x08; x09;
   x0a; x0b; x0c; x0d; x0e; x0f; x10; x11; x12; x13].

Definition helloEntry : RawEntry :=
  {| rawMode := ascii_bytes "100644";
     rawName := ascii_bytes "hello.txt";
     rawHash := bytes0to19 |}.

(** An entry whose name is no UTF-8 text, and one of unlisted mode. *)
Definition brokenNameEntry : RawEntry :=
  {| rawMode := ascii_bytes "40000";
     rawName := [xff; xfe];
     rawHash := bytes0to19 |}.
Definition oddModeEntry : RawEntry :=
  {| rawMode := ascii_bytes "99999";
     rawName := ascii_bytes "x";
     rawHash := bytes0to19 |}.

(** ** The content provider and the tree view *)

(** *** More of [String] and [Array] *)

(** [s.split(sep)] for a separator of one code unit, such as [path.sep]. *)
Fixpoint splitOn (sep : N) (s : jsstring) : list jsstring :=
  match s with
  | [] => [[]]
  | c :: rest =>
    if N.eqb c sep then [] :: splitOn sep rest
    else match splitOn sep rest with
         | piece :: pieces => (c :: piece) :: pieces
         | [] => [[c]]
         end
  end.

(** [s.substring(start, end)]: the two indices are swapped when they come
    in the wrong order. *)
Definition substring (s : jsstring) (start stop : nat) : jsstring :=
  firstn (Nat.max start stop - Nat.min start stop)
         (skipn (Nat.min start stop) s).

(** [s.substring(start)]. *)
Definition substringFrom (s : jsstring) (start : nat) : jsstring :=
  skipn start s.

Definition SLASH : N := 0x2F.

(** [s.startsWith("/")]. *)
Definition startsWithSlash (s : jsstring) : bool :=
  match s with
  | c :: _ => N.eqb c SLASH
  | [] => false
  end.

(** [array.findIndex(p)], counting from [i]. *)
Fixpoint findIndexFrom {A} (p : A -> bool) (l : list A) (i : Z) : Z :=
  match l with
  | [] => -1
  | x :: rest => if p x then i else findIndexFrom p rest (i + 1)
  end.
Definition findIndex {A} (p : A -> bool) (l : list A) : Z :=
  findIndexFrom p l 0.

(** [parts[i]] for an index within the array. *)
Definition at_ (parts : list jsstring) (i : Z) : jsstring :=
  nth (Z.to_nat i) parts [].

(** A non-empty string is truthy. *)
Definition truthy (s : jsstring) : bool :=
  match s with
  | [] => false
  | _ :: _ => true
  end.

(** The digits of a number in a template literal. *)
Fixpoint uintChars (d : Decimal.uint) : jsstring :=
  match d with
  | Decimal.Nil => []
  | Decimal.D0 d => 0x30%N :: uintChars d
  | Decimal.D1 d => 0x31%N :: uintChars d
  | Decimal.D2 d => 0x32%N :: uintChars d
  | Decimal.D3 d => 0x33%N :: uintChars d
  | Decimal.D4 d => 0x34%N :: uintChars d
  | Decimal.D5 d => 0x35%N :: uintChars d
  | Decimal.D6 d => 0x36%N :: uintChars d
  | Decimal.D7 d => 0x37%N :: uintChars d
  | Decimal.D8 d => 0x38%N :: uintChars d
  | Decimal.D9 d => 0x39%N :: uintChars d
  end.

Definition decimal (n : nat) : jsstring := uintChars (Nat.to_uint n).

(** [`${n}`] for a number: integers below 10^21, as every buffer length
    is, are written in decimal digits. *)
Definition numberToString (n : jsnum) : jsstring :=
  match n with
  | NaN => lit "NaN"
  | Num z =>
    if z <? 0 then 0x2D%N :: decimal (Z.abs_nat z) else decimal (Z.to_nat z)
  end.

(** *** The host: [path], [fs], [zlib] and what the engine adds *)

Module Dirent.
Record t := { name : jsstring; isDirectory : bool }.
End Dirent.

Module Uri.
Record t := { scheme : jsstring; path : jsstring }.
End Uri.

Record Host := {
  path_sep : N;
  path_join : list jsstring -> jsstring;
  fs_existsSync : jsstring -> bool;
  fs_readFile : jsstring -> NodeResult;
  zlib_inflate : Buffer.t -> NodeResult;
  fs_readdirSync : jsstring -> JsError + list jsstring;
  fs_readdirSync_withFileTypes : jsstring -> JsError + list Dirent.t;
  uri_toString : Uri.t -> jsstring;
  error_stack : JsError -> jsstring
}.

(** [parseGitObject(objectPath)] for a path that is a JavaScript string. *)
Definition parseGitObjectAt (h : Host) (objectPath : jsstring)
    : Promise GitObject :=
  readFileCallback (zlib_inflate h) (fs_readFile h objectPath).

(** One call of [console.log] or [console.error], with its arguments. *)
Inductive LogArg :=
| Text (s : jsstring)
| Thrown (error : JsError).
Inductive LogEntry :=
| console_log (args : list LogArg)
| console_error (args : list LogArg).

(** *** [GitObjectContentProvider] *)

Module GitObjectContentProvider.

Record t := { workspaceRoot : jsstring; gitObjectsPath : jsstring }.

Definition constructor (h : Host) (workspaceRoot : jsstring) : t :=
  {| workspaceRoot := workspaceRoot;
     gitObjectsPath :=
       path_join h [workspaceRoot; lit ".git"; lit "objects"] |}.

(** The hash of an object opened from its file:
    [.git/objects/ab/cdef...] gives [abcdef...]. *)
Definition hashOfObjectPath (h : Host) (objectPath : jsstring) : jsstring :=
  let parts := splitOn (path_sep h) objectPath in
  let objectsIndex :=
    findIndex (fun p => jsstring_eqb p (lit "objects")) parts in
  if (objectsIndex >=? 0)
     && (Z.of_nat (List.length parts) >? objectsIndex + 2) then
    let dir := at_ parts (objectsIndex + 1) in
    let file := at_ parts (objectsIndex + 2) in
    dir ++ file
  else lit "unknown".

(** The hash of an object opened from the tree view. *)
Definition hashOfUriPath (path : jsstring) : jsstring :=
  if startsWithSlash path then substringFrom path 1 else path.

(** [objectPath] and [hash], by scheme. *)
Definition locate (h : Host) (this : t) (uri : Uri.t)
    : jsstring * jsstring :=
  if jsstring_eqb (Uri.scheme uri) (lit "git-object-file") then
    let objectPath := Uri.path uri in
    (objectPath, hashOfObjectPath h objectPath)
  else
    let hash := hashOfUriPath (Uri.path uri) in
    let dir := substring hash 0 2 in
    let file := substringFrom hash 2 in
    (path_join h [gitObjectsPath this; dir; file], hash).

(** The text shown for a decoded object; [None] when the tree loop ran
    out of fuel. *)
Definition render (hash : jsstring) (o : GitObject) : option jsstring :=
  let contentStr :=
    if jsstring_eqb (type o) (lit "tree") then parseTreeObject (content o)
    else Some (toString (content o)) in
  match contentStr with
  | Some contentStr =>
    Some (lit "Object Type: " ++ type o ++ [LF]
          ++ lit "Size: " ++ numberToString (size o) ++ lit " bytes" ++ [LF]
          ++ lit "Hash: " ++ hash ++ [LF; LF] ++ contentStr)
  | None => None
  end.

(** The console output and the document. *)
Definition provideTextDocumentContent (h : Host) (this : t) (uri : Uri.t)
    : list LogEntry * option jsstring :=
  let log1 :=
    [ console_log [Text (lit "provideTextDocumentContent called with URI:");
                   Text (uri_toString h uri)];
      console_log [Text (lit "URI scheme:"); Text (Uri.scheme uri)];
      console_log [Text (lit "URI path:"); Text (Uri.path uri)] ] in
  let (objectPath, hash) := locate h this uri in
  let log2 :=
    log1 ++ [ console_log [Text (lit "Object path:"); Text objectPath];
              console_log [Text (lit "Hash:"); Text hash] ] in
  if negb (fs_existsSync h objectPath) then
    (log2, Some (lit "Object file not found for hash: " ++ hash ++ [LF]
                 ++ lit "Path: " ++ objectPath))
  else
    match parseGitObjectAt h objectPath with
    | Resolved o => (log2, render hash o)
    | Rejected error =>
      (log2 ++ [ console_error
                   [Text (lit "Error providing text document content:");
                    Thrown error] ],
       Some (lit "Error reading object: " ++ lit (message error)
             ++ [LF; LF] ++ lit "Stack: " ++ error_stack h error))
    end.

End GitObjectContentProvider.

(** *** [GitObjectTreeDataProvider] *)

Module TreeItem.

Inductive CollapsibleState := None | Collapsed | Expanded.

(** [{ command, title, arguments }]. *)
Record Command := {
  commandId : jsstring;
  title : jsstring;
  arguments : list jsstring
}.

Record t := {
  label : jsstring;
  collapsibleState : CollapsibleState;
  description : option jsstring;
  tooltip : option jsstring;
  command : option Command
}.

(** [new vscode.TreeItem(label, collapsibleState)]. *)
Definition new (label : jsstring) (state : CollapsibleState) : t :=
  {| label := label; collapsibleState := state;
     description := Datatypes.None; tooltip := Datatypes.None;
     command := Datatypes.None |}.

End TreeItem.

Module GitObjectTreeDataProvider.

Record t := {
  workspaceRoot : option jsstring;
  gitObjectsPath : option jsstring
}.

(** An absent or empty [workspaceRoot] leaves [gitObjectsPath] undefined. *)
Definition constructor (h : Host) (workspaceRoot : option jsstring) : t :=
  {| workspaceRoot := workspaceRoot;
     gitObjectsPath :=
       match workspaceRoot with
       | Some root =>
         if truthy root
         then Some (path_join h [root; lit ".git"; lit "objects"])
         else Datatypes.None
       | Datatypes.None => Datatypes.None
       end |}.

(** The item of one file of a two-character directory, with what the
    callback writes to the console. *)
Definition fileItem (h : Host) (subDir dirLabel file : jsstring)
    : list LogEntry * TreeItem.t :=
  let hash := dirLabel ++ file in
  let objectPath := path_join h [subDir; file] in
  match parseGitObjectAt h objectPath with
  | Resolved o =>
    let label :=
      substring file 0 10 ++ lit "... (" ++ type o ++ lit ", "
      ++ numberToString (size o) ++ lit "b)" in
    ([],
     {| TreeItem.label := label;
        TreeItem.collapsibleState := TreeItem.None;
        TreeItem.description := Some hash;
        TreeItem.tooltip :=
          Some (lit "Type: " ++ type o ++ [LF]
                ++ lit "Size: " ++ numberToString (size o) ++ lit " bytes"
                ++ [LF] ++ lit "Hash: " ++ hash);
        TreeItem.command :=
          Some {| TreeItem.commandId :=
                    lit "git-object-viewer.showObjectContent";
                  TreeItem.title := lit "Show Content";
                  TreeItem.arguments := [hash] |} |})
  | Rejected error =>
    ([ console_error
         [Text (lit "Error parsing " ++ hash ++ lit ":"); Thrown error] ],
     TreeItem.new (file ++ lit " (Error)") TreeItem.None)
  end.

(** The children of [element] ([None] for the root).  The console entries
    of the files are listed in the order of the files; the callbacks run
    concurrently, so the console may receive them in another order. *)
Definition getChildren (h : Host) (this : t) (element : option TreeItem.t)
    : list LogEntry * Promise (list TreeItem.t) :=
  match gitObjectsPath this with
  | Datatypes.None => ([], Resolved [])
  | Some gitObjectsPath =>
    if negb (truthy gitObjectsPath) || negb (fs_existsSync h gitObjectsPath)
    then ([], Resolved []) else
    match element with
    | Datatypes.None =>
      match fs_readdirSync_withFileTypes h gitObjectsPath with
      | inl thrown => ([], Rejected thrown)
      | inr entries =>
        ([], Resolved
               (map (fun entry =>
                       TreeItem.new (Dirent.name entry) TreeItem.Collapsed)
                    (filter (fun entry =>
                               Dirent.isDirectory entry
                               && Nat.eqb (List.length (Dirent.name entry)) 2)
                            entries)))
      end
    | Some element =>
      if truthy (TreeItem.label element)
         && Nat.eqb (List.length (TreeItem.label element)) 2 then
        let subDir := path_join h [gitObjectsPath; TreeItem.label element] in
        match fs_readdirSync h subDir with
        | inl thrown => ([], Rejected thrown)
        | inr files =>
          let results :=
            map (fileItem h subDir (TreeItem.label element)) files in
          (flat_map fst results, Resolved (map snd results))
        end
      else ([], Resolved [])
    end
  end.

End GitObjectTreeDataProvider.

(** *** Objects as Git writes them *)

(** The bytes of a text of ASCII characters. *)
Definition ofAscii (s : jsstring) : Buffer.t :=
  map (fun c => match Byte.of_N c with Some b => b | Datatypes.None => x00 end)
      s.

(** A loose object before compression: the type, a space, the length of
    the payload in decimal digits, a zero byte, the payload. *)
Definition looseObject (typeBytes payload : Buffer.t) : Buffer.t :=
  typeBytes ++ x20 :: ofAscii (decimal (List.length payload))
  ++ x00 :: payload.

Definition isAscii (buf : Buffer.t) : Prop :=
  Forall (fun b => (b2n b <= 0x7F)%N) buf.

(** A host with one repository at [/repo]: the object [ab/cdef] is a blob
    stored uncompressed, the file [ab/bad] cannot be read; paths are
    joined with slashes. *)
Definition sampleObjects : jsstring := lit "/repo/.git/objects".
Definition sampleHost : Host :=
  {| path_sep := SLASH;
     path_join := join [SLASH];
     fs_existsSync := fun p =>
       existsb (jsstring_eqb p)
         [sampleObjects; lit "/repo/.git/objects/ab";
          lit "/repo/.git/objects/ab/cdef"; lit "/repo/.git/objects/ab/bad"];
     fs_readFile := fun p =>
       if jsstring_eqb p (lit "/repo/.git/objects/ab/cdef")
       then inr (looseObject (ascii_bytes "blob") hello)
       else inl (Error "EACCES: permission denied");
     zlib_inflate := fun c => inr c;
     fs_readdirSync := fun p =>
       if jsstring_eqb p (lit "/repo/.git/objects/ab")
       then inr [lit "cdef"; lit "bad"]
       else inl (Error "ENOENT: no such file or directory");
     fs_readdirSync_withFileTypes := fun p =>
       inr [ {| Dirent.name := lit "ab"; Dirent.isDirectory := true |};
             {| Dirent.name := lit "info"; Dirent.isDirectory := true |};
             {| Dirent.name := lit "zz"; Dirent.isDirectory := false |} ];
     uri_toString := fun uri => Uri.scheme uri ++ lit ":" ++ Uri.path uri;
     error_stack := fun error => lit (message error) |}.

(** A host where every path is a file holding [bytes] uncompressed. *)
Definition plainHost (bytes : Buffer.t) : Host :=
  {| path_sep := SLASH;
     path_join := join [SLASH];
     fs_existsSync := fun _ => true;
     fs_readFile := fun _ => inr bytes;
     zlib_inflate := fun c => inr c;
     fs_readdirSync := fun _ => inr [];
     fs_readdirSync_withFileTypes := fun _ => inr [];
     uri_toString := Uri.path;
     error_stack := fun _ => lit "at parseGitObject" |}.

(** * Properties *)

(** ** Buffers: scanning and slicing *)

Module BufferFacts.
Import Buffer.

Lemma length_app (a b : t) : length (a ++ b) = length a + length b.
Proof. unfold length. rewrite List.length_app. lia. Qed.

Lemma length_cons (x : byte) (a : t) : length (x :: a) = 1 + length a.
Proof. unfold length. cbn [List.length]. lia. Qed.

Lemma length_nonneg (a : t) : 0 <= length a.
Proof. unfold length. lia. Qed.

Lemma eqb_false_iff (a b : byte) : Byte.eqb a b = false <-> a <> b.
Proof.
  split.
  - intros H E. subst. rewrite Byte.byte_dec_lb in H by reflexivity.
    discriminate.
  - intros H. destruct (Byte.eqb a b) eqn:E; [|reflexivity].
    apply Byte.byte_dec_bl in E. contradiction.
Qed.

Lemma scan_absent v l i : ~ In v l -> scan v l i = -1.
Proof.
  revert i. induction l as [|b l IH]; intros i H; cbn [scan]; [reflexivity|].
  destruct (Byte.eqb b v) eqn:E.
  - apply Byte.byte_dec_bl in E. subst. exfalso. apply H. now left.
  - apply IH. intros Hin. apply H. now right.
Qed.

Lemma scan_first v a b i : ~ In v a -> scan v (a ++ v :: b) i = i + length a.
Proof.
  revert i. induction a as [|x a IH]; intros i H; cbn [scan app].
  - rewrite Byte.byte_dec_lb by reflexivity. unfold length. cbn. lia.
  - destruct (Byte.eqb x v) eqn:E.
    + apply Byte.byte_dec_bl in E. subst. exfalso. apply H. now left.
    + rewrite IH by (intros Hin; apply H; now right).
      rewrite length_cons. lia.
Qed.

(** A list either lacks [v] or splits at the first [v]. *)
Lemma first_occurrence (v : byte) (l : t) :
  ~ In v l \/ exists a b, l = a ++ v :: b /\ ~ In v a.
Proof.
  induction l as [|x l IH].
  - left. intros [].
  - destruct (Byte.eqb x v) eqn:E.
    + apply Byte.byte_dec_bl in E. subst. right. exists [], l.
      split; [reflexivity | intros []].
    + apply eqb_false_iff in E. destruct IH as [IH | (a & b & -> & Ha)].
      * left. intros [H | H]; [contradiction | now apply IH].
      * right. exists (x :: a), b. split; [reflexivity|].
        intros [H | H]; [contradiction | now apply Ha].
Qed.

Lemma skipn_length_app (pre rest : t) :
  skipn (Z.to_nat (length pre)) (pre ++ rest) = rest.
Proof.
  unfold length. rewrite Nat2Z.id. rewrite skipn_app, Nat.sub_diag.
  rewrite skipn_all. reflexivity.
Qed.

(** Searching from the end of a prefix is scanning what follows it. *)
Lemma indexOf_after pre rest v :
  indexOf (pre ++ rest) v (length pre) = scan v rest (length pre).
Proof.
  unfold indexOf. pose proof (length_nonneg pre) as Hp.
  destruct (length pre <? 0) eqn:E; [apply Z.ltb_lt in E; lia|].
  now rewrite skipn_length_app.
Qed.

(** Every offset within a buffer is the end of a prefix. *)
Lemma split_at (buf : t) (offset : Z) :
  0 <= offset <= length buf ->
  exists pre rest, buf = pre ++ rest /\ length pre = offset.
Proof.
  intros H.
  exists (firstn (Z.to_nat offset) buf), (skipn (Z.to_nat offset) buf).
  split; [symmetry; apply firstn_skipn|].
  unfold length in *. rewrite firstn_length_le by lia. lia.
Qed.

Lemma indexOf_past buf v offset :
  length buf <= offset -> indexOf buf v offset = -1.
Proof.
  intros H. unfold indexOf. pose proof (length_nonneg buf).
  destruct (offset <? 0) eqn:E; [apply Z.ltb_lt in E; lia|].
  rewrite skipn_all2 by (unfold length in *; lia). reflexivity.
Qed.

Lemma clamp_inside len i : 0 <= i <= len -> clamp len i = i.
Proof.
  intros H. unfold clamp. destruct (i <? 0) eqn:E; [apply Z.ltb_lt in E|]; lia.
Qed.

(** The slice between the two ends of a middle part is that part. *)
Lemma slice_middle (pre mid post : t) :
  slice (pre ++ mid ++ post) (length pre) (length pre + length mid) = mid.
Proof.
  unfold slice. pose proof (length_nonneg pre). pose proof (length_nonneg mid).
  pose proof (length_nonneg post).
  rewrite !clamp_inside by (rewrite !length_app; lia).
  rewrite skipn_length_app.
  replace (length pre + length mid - length pre) with (length mid) by lia.
  unfold length. rewrite Nat2Z.id. rewrite firstn_app, Nat.sub_diag.
  rewrite firstn_all. cbn. apply app_nil_r.
Qed.

Lemma sliceFrom_after (pre rest : t) :
  sliceFrom (pre ++ rest) (length pre) = rest.
Proof.
  unfold sliceFrom. rewrite <- (app_nil_r rest) at 1.
  rewrite length_app. apply slice_middle.
Qed.

End BufferFacts.

Module LoopFacts.
Import Buffer BufferFacts.

Ltac len :=
  repeat first [rewrite length_app | rewrite length_cons];
  unfold length in *; cbn [List.length] in *; lia.

Ltac reassoc :=
  repeat rewrite <- app_assoc; cbn [app]; repeat rewrite <- app_assoc;
  reflexivity.

Lemma indexOf_at content pre a b v offset :
  content = pre ++ a ++ v :: b -> offset = length pre -> ~ In v a ->
  indexOf content v offset = offset + length a.
Proof.
  intros -> -> H. rewrite indexOf_after. now apply scan_first.
Qed.

Lemma indexOf_none content pre rest v offset :
  content = pre ++ rest -> offset = length pre -> ~ In v rest ->
  indexOf content v offset = -1.
Proof.
  intros -> -> H. rewrite indexOf_after. now apply scan_absent.
Qed.

Lemma slice_at content pre mid post start stop :
  content = pre ++ mid ++ post -> start = length pre ->
  stop = start + length mid -> slice content start stop = mid.
Proof. intros -> -> ->. apply slice_middle. Qed.

Lemma eqb_m1 (i : Z) : 0 <= i -> (i =? -1) = false.
Proof. intros H. apply Z.eqb_neq. lia. Qed.

Lemma length_encode r :
  length (encode r)
  = length (rawMode r) + 1 + length (rawName r) + 1 + length (rawHash r).
Proof. unfold encode. len. Qed.

(** At the start of a well-formed entry the body pushes that entry and
    leaves the cursor just behind it. *)
Lemma loopBody_entry pre r rest :
  wellFormed r ->
  loopBody (pre ++ encode r ++ rest) (length pre)
  = Push (entryOf r) (length pre + length (encode r)).
Proof.
  destruct r as [m n h]. intros (Hm & Hn & Hh).
  cbn [rawMode rawName rawHash] in *.
  rewrite length_encode. unfold encode, entryOf. cbn [rawMode rawName rawHash].
  set (content := pre ++ (m ++ x20 :: n ++ x00 :: h) ++ rest).
  pose proof (length_nonneg pre). pose proof (length_nonneg m).
  pose proof (length_nonneg n).
  unfold loopBody.
  rewrite (indexOf_at content pre m (n ++ x00 :: h ++ rest) x20)
    by (auto; subst content; reassoc).
  rewrite eqb_m1 by lia.
  rewrite (slice_at content pre m (x20 :: n ++ x00 :: h ++ rest) (length pre))
    by (auto; subst content; reassoc).
  rewrite (indexOf_at content (pre ++ m ++ [x20]) n (h ++ rest) x00)
    by (auto; subst content; first [reassoc | len]).
  rewrite eqb_m1 by lia.
  rewrite (slice_at content (pre ++ m ++ [x20]) n (x00 :: h ++ rest)
             (length pre + length m + 1))
    by (auto; subst content; first [reassoc | len]).
  replace (length pre + length m + 1 + length n + 1 + 20 >? length content)
    with false
    by (symmetry; rewrite Z.gtb_ltb; apply Z.ltb_ge; subst content; len).
  rewrite (slice_at content (pre ++ m ++ [x20] ++ n ++ [x00]) h rest
             (length pre + length m + 1 + length n + 1))
    by (auto; subst content; first [reassoc | len]).
  f_equal. len.
Qed.

(** Conversely, whenever the body pushes an entry, the cursor stood at the
    start of a well-formed entry. *)
Lemma loopBody_Push_inv content offset e offset' :
  0 <= offset -> loopBody content offset = Push e offset' ->
  exists pre r rest,
    content = pre ++ encode r ++ rest /\ length pre = offset
    /\ wellFormed r /\ e = entryOf r /\ offset' = offset + length (encode r).
Proof.
  intros H0 Hb.
  destruct (Z.le_gt_cases offset (length content)) as [Hle | Hgt].
  2:{ unfold loopBody in Hb. rewrite indexOf_past in Hb by lia.
      discriminate. }
  destruct (split_at content offset) as (pre & t & -> & Hpre); [lia|].
  subst offset.
  destruct (first_occurrence x20 t) as [Hs | (m & u & -> & Hm)].
  { unfold loopBody in Hb.
    rewrite (indexOf_none _ pre t x20) in Hb by auto. discriminate. }
  destruct (first_occurrence x00 u) as [Hz | (n & v & -> & Hn)].
  { unfold loopBody in Hb.
    rewrite (indexOf_at _ pre m u x20) in Hb by auto.
    rewrite eqb_m1 in Hb by (pose proof (length_nonneg m); lia).
    rewrite (indexOf_none _ (pre ++ m ++ [x20]) u x00) in Hb
      by (auto; first [reassoc | len]).
    discriminate. }
  destruct (Nat.le_gt_cases 20 (List.length v)) as [Hv | Hv].
  - set (r := {| rawMode := m; rawName := n; rawHash := firstn 20 v |}).
    assert (Hwf : wellFormed r).
    { repeat split; auto. cbn [r rawHash]. now apply firstn_length_le. }
    exists pre, r, (skipn 20 v).
    assert (Hc : pre ++ m ++ x20 :: n ++ x00 :: v
                 = pre ++ encode r ++ skipn 20 v).
    { unfold encode, r. cbn [rawMode rawName rawHash].
      rewrite <- (firstn_skipn 20 v) at 1. reassoc. }
    rewrite Hc in Hb |- *. rewrite loopBody_entry in Hb by assumption.
    injection Hb as <- <-. auto.
  - exfalso. unfold loopBody in Hb.
    rewrite (indexOf_at _ pre m (n ++ x00 :: v) x20) in Hb by auto.
    rewrite eqb_m1 in Hb by (pose proof (length_nonneg m); lia).
    rewrite (indexOf_at _ (pre ++ m ++ [x20]) n v x00) in Hb
      by (auto; first [reassoc | len]).
    rewrite eqb_m1 in Hb
      by (pose proof (length_nonneg m); pose proof (length_nonneg n); lia).
    replace (length pre + length m + 1 + length n + 1 + 20
             >? length (pre ++ m ++ x20 :: n ++ x00 :: v))
      with true in Hb by (symmetry; rewrite Z.gtb_ltb; apply Z.ltb_lt; len).
    discriminate.
Qed.

(** On a truncated tail the body breaks out of the loop. *)
Lemma loopBody_truncated pre t :
  Truncated t -> loopBody (pre ++ t) (length pre) = Break.
Proof.
  pose proof (length_nonneg pre) as Hp.
  intros [t' Hs | m u Hm Hz | m n h Hm Hn Hh]; unfold loopBody.
  - rewrite (indexOf_none _ pre t' x20) by auto. reflexivity.
  - rewrite (indexOf_at _ pre m u x20) by auto.
    rewrite eqb_m1 by (pose proof (length_nonneg m); lia).
    rewrite (indexOf_none _ (pre ++ m ++ [x20]) u x00)
      by (auto; first [reassoc | len]).
    reflexivity.
  - rewrite (indexOf_at _ pre m (n ++ x00 :: h) x20) by auto.
    rewrite eqb_m1 by (pose proof (length_nonneg m); lia).
    rewrite (indexOf_at _ (pre ++ m ++ [x20]) n h x00)
      by (auto; first [reassoc | len]).
    rewrite eqb_m1
      by (pose proof (length_nonneg m); pose proof (length_nonneg n); lia).
    replace (length pre + length m + 1 + length n + 1 + 20
             >? length (pre ++ m ++ x20 :: n ++ x00 :: h))
      with true by (symmetry; rewrite Z.gtb_ltb; apply Z.ltb_lt; len).
    reflexivity.
Qed.

End LoopFacts.

(** ** The loop: fuel, termination and the unfuelled relation *)

Module WhileFacts.
Import Buffer BufferFacts LoopFacts.

(** A pass that pushes an entry moves the cursor forward by at least 22
    bytes and never past the end. *)
Lemma loopBody_advances content offset e offset' :
  0 <= offset -> loopBody content offset = Push e offset' ->
  offset + 22 <= offset' <= length content.
Proof.
  intros H0 Hb.
  destruct (loopBody_Push_inv _ _ _ _ H0 Hb)
    as (pre & r & rest & -> & Hpre & (_ & _ & Hh) & _ & ->).
  rewrite length_encode. rewrite !length_app, length_encode.
  pose proof (length_nonneg (rawMode r)).
  pose proof (length_nonneg (rawName r)).
  pose proof (length_nonneg rest).
  assert (length (rawHash r) = 20) by (unfold length; lia). lia.
Qed.


(** One unit of fuel for every 22 bytes still to read, and one more. *)
Lemma whileEntries_terminates fuel : forall content offset entries,
  0 <= offset -> (0 < fuel)%nat ->
  length content - offset < 22 * Z.of_nat fuel ->
  exists result, whileEntries fuel content offset entries = Some result.
Proof.
  induction fuel as [|fuel IH]; intros content offset entries H0 Hf Hlen.
  - lia.
  - cbn [whileEntries]. destruct (offset <? length content) eqn:Hlt.
    2:{ eexists; reflexivity. }
    apply Z.ltb_lt in Hlt.
    destruct (loopBody content offset) as [|e o'] eqn:Hb.
    { eexists; reflexivity. }
    pose proof (loopBody_advances _ _ _ _ H0 Hb) as Hadv.
    apply IH; lia.
Qed.

Lemma whileEntries_runs fuel : forall content offset entries result,
  whileEntries fuel content offset entries = Some result ->
  loopRuns content offset entries result.
Proof.
  induction fuel as [|fuel IH]; intros content offset entries result H.
  - discriminate.
  - cbn [whileEntries] in H. destruct (offset <? length content) eqn:Hlt.
    + apply Z.ltb_lt in Hlt.
      destruct (loopBody content offset) as [|e o'] eqn:Hb.
      * injection H as <-. now apply runs_break.
      * eapply runs_push; eauto.
    + apply Z.ltb_ge in Hlt. injection H as <-. apply runs_end. lia.
Qed.

Lemma runs_whileEntries content offset entries result :
  loopRuns content offset entries result ->
  exists fuel, whileEntries fuel content offset entries = Some result.
Proof.
  induction 1 as [offset entries Hge | offset entries Hlt Hb
                 | offset entries e o' result Hlt Hb _ (fuel & IH)].
  - exists 1%nat. cbn [whileEntries].
    replace (offset <? length content) with false
      by (symmetry; apply Z.ltb_ge; lia).
    reflexivity.
  - exists 1%nat. cbn [whileEntries].
    replace (offset <? length content) with true
      by (symmetry; apply Z.ltb_lt; lia).
    now rewrite Hb.
  - exists (S fuel). cbn [whileEntries].
    replace (offset <? length content) with true
      by (symmetry; apply Z.ltb_lt; lia).
    now rewrite Hb.
Qed.

Lemma loopRuns_functional content offset entries r1 :
  loopRuns content offset entries r1 ->
  forall r2, loopRuns content offset entries r2 -> r1 = r2.
Proof.
  induction 1 as [offset entries Hge | offset entries Hlt Hb
                 | offset entries e o' result Hlt Hb _ IH];
    intros r2 H2; inversion H2; subst; try reflexivity; try lia;
    try congruence.
  apply IH. match goal with
            | H : loopBody _ _ = Push ?e' ?o'' |- _ =>
              rewrite Hb in H; injection H as <- <-
            end. assumption.
Qed.

(** The loop of the source pushes the line of every entry. *)
Lemma whileLoop_lines fuel : forall content offset entries,
  whileLoop fuel content offset (map entryLine entries)
  = option_map (map entryLine) (whileEntries fuel content offset entries).
Proof.
  induction fuel as [|fuel IH]; intros content offset entries;
    cbn [whileLoop whileEntries]; [reflexivity|].
  destruct (offset <? length content); [|reflexivity].
  destruct (loopBody content offset) as [|e o']; [reflexivity|].
  rewrite <- IH. now rewrite map_app.
Qed.

Lemma length_encodeAll_ge rs :
  Z.of_nat (List.length rs) <= length (encodeAll rs).
Proof.
  induction rs as [|r rs IH]; cbn [encodeAll flat_map List.length].
  - unfold length. cbn. lia.
  - fold (encodeAll rs). rewrite length_app, length_encode.
    pose proof (length_nonneg (rawMode r)).
    pose proof (length_nonneg (rawName r)).
    pose proof (length_nonneg (rawHash r)). lia.
Qed.

(** Entered at the start of well-formed entries followed by a truncated
    tail, the loop pushes exactly those entries, in order. *)
Lemma whileEntries_encodeAll t rs : forall pre entries fuel,
  Forall wellFormed rs -> Truncated t -> (List.length rs < fuel)%nat ->
  whileEntries fuel (pre ++ encodeAll rs ++ t) (length pre) entries
  = Some (entries ++ map entryOf rs).
Proof.
  induction rs as [|r rs IH]; intros pre entries fuel Hwf Ht Hf;
    (destruct fuel as [|fuel]; [cbn in Hf; lia|]); cbn [whileEntries].
  - cbn [encodeAll flat_map app map]. rewrite app_nil_r.
    destruct (length pre <? length (pre ++ t)); [|reflexivity].
    now rewrite loopBody_truncated.
  - inversion Hwf as [|? ? Hr Hrs]; subst.
    cbn [encodeAll flat_map]. fold (encodeAll rs). rewrite <- app_assoc.
    replace (length pre <? length (pre ++ encode r ++ encodeAll rs ++ t))
      with true.
    2:{ symmetry. apply Z.ltb_lt. rewrite !length_app, length_encode.
        pose proof (length_nonneg (rawMode r)).
        pose proof (length_nonneg (rawName r)).
        pose proof (length_nonneg (rawHash r)).
        pose proof (length_nonneg (encodeAll rs ++ t)).
        rewrite length_app in *. lia. }
    rewrite loopBody_entry by assumption.
    rewrite <- length_app.
    replace (pre ++ encode r ++ encodeAll rs ++ t)
      with ((pre ++ encode r) ++ encodeAll rs ++ t)
      by (now rewrite <- app_assoc).
    rewrite IH by (auto; cbn in Hf; lia).
    rewrite <- app_assoc. reflexivity.
Qed.

Lemma treeEntries_total content :
  exists entries, treeEntries content = Some entries.
Proof.
  apply whileEntries_terminates; unfold enoughFuel; try lia.
  unfold length. lia.
Qed.

Lemma treeEntries_encodeAll rs t :
  Forall wellFormed rs -> Truncated t ->
  treeEntries (encodeAll rs ++ t) = Some (map entryOf rs).
Proof.
  intros Hwf Ht. unfold treeEntries.
  apply (whileEntries_encodeAll t rs [] []); auto.
  unfold enoughFuel. pose proof (length_encodeAll_ge rs).
  rewrite List.length_app. unfold length in *. lia.
Qed.

End WhileFacts.

(** ** Decoding: ASCII code units come from ASCII bytes *)

Module DecodeFacts.
Local Open Scope N_scope.

Lemma lor_ge_l a b : a <= N.lor a b.
Proof.
  apply N.ldiff_le. apply N.bits_inj. intros n.
  rewrite N.ldiff_spec, N.lor_spec, N.bits_0.
  destruct (N.testbit a n), (N.testbit b n); reflexivity.
Qed.

Lemma addCont_ge_l a c : 64 * a <= addCont a c.
Proof.
  unfold addCont. etransitivity; [|apply lor_ge_l].
  rewrite N.shiftl_mul_pow2. change (2 ^ 6) with 64. lia.
Qed.

Lemma addCont_ge_r a c : N.land c 0x3F <= addCont a c.
Proof. unfold addCont. rewrite N.lor_comm. apply lor_ge_l. Qed.

Ltac bytes b :=
  destruct b; vm_compute; intros;
  first [ discriminate | left; discriminate | right; reflexivity
        | match goal with
          | H : ?x = ?x -> False |- _ => exfalso; apply H; reflexivity
          end ].

Lemma lead2_bits b :
  inRange 0xC2 0xDF (b2n b) = true -> 2 <= N.land (b2n b) 0x1F.
Proof. bytes b. Qed.

Lemma lead3_bits b :
  inRange 0xE0 0xEF (b2n b) = true ->
  1 <= N.land (b2n b) 0xF \/ lowerBoundary (b2n b) = 0xA0.
Proof. bytes b. Qed.

Lemma lead4_bits b :
  inRange 0xF0 0xF4 (b2n b) = true ->
  1 <= N.land (b2n b) 0x7 \/ lowerBoundary (b2n b) = 0x90.
Proof. bytes b. Qed.

Lemma upperBoundary_le lead : upperBoundary lead <= 0xBF.
Proof.
  unfold upperBoundary. destruct (lead =? 0xED); [lia|].
  destruct (lead =? 0xF4); lia.
Qed.

Lemma cont_bits lo c :
  inRange lo 0xBF (b2n c) = true -> 0x90 <= lo -> 16 <= N.land (b2n c) 0x3F.
Proof.
  unfold inRange. intros H Hlo. apply andb_prop in H as [H Hhi].
  apply N.leb_le in H. assert (Hc : inRange 0x90 0xBF (b2n c) = true).
  { unfold inRange. rewrite Hhi, andb_true_r. apply N.leb_le. lia. }
  clear - Hc. revert Hc. bytes c.
Qed.

Lemma inRange_widen lo hi hi' x :
  inRange lo hi x = true -> hi <= hi' -> inRange lo hi' x = true.
Proof.
  unfold inRange. intros H Hhi. apply andb_prop in H as [H1 H2].
  apply N.leb_le in H2. rewrite H1. apply N.leb_le. lia.
Qed.

Lemma two_bytes_high b c1 :
  inRange 0xC2 0xDF (b2n b) = true ->
  0x80 <= addCont (N.land (b2n b) 0x1F) (b2n c1).
Proof.
  intros H. apply lead2_bits in H.
  pose proof (addCont_ge_l (N.land (b2n b) 0x1F) (b2n c1)). lia.
Qed.

Lemma first_cont_pos (lead : N) b c1 :
  1 <= lead \/ 0x90 <= lowerBoundary (b2n b) ->
  inRange (lowerBoundary (b2n b)) (upperBoundary (b2n b)) (b2n c1) = true ->
  1 <= addCont lead (b2n c1).
Proof.
  intros [H | H] Hc.
  - pose proof (addCont_ge_l lead (b2n c1)). lia.
  - apply inRange_widen with (hi' := 0xBF) in Hc;
      [|apply upperBoundary_le].
    pose proof (cont_bits _ _ Hc H).
    pose proof (addCont_ge_r lead (b2n c1)). lia.
Qed.

Lemma three_bytes_high b c1 c2 :
  inRange 0xE0 0xEF (b2n b) = true ->
  inRange (lowerBoundary (b2n b)) (upperBoundary (b2n b)) (b2n c1) = true ->
  0x80 <= addCont (addCont (N.land (b2n b) 0xF) (b2n c1)) (b2n c2).
Proof.
  intros Hb Hc. pose proof (addCont_ge_l (N.land (b2n b) 0xF) (b2n c1)).
  pose proof (addCont_ge_r (N.land (b2n b) 0xF) (b2n c1)).
  pose proof (addCont_ge_l (addCont (N.land (b2n b) 0xF) (b2n c1)) (b2n c2)).
  destruct (lead3_bits b Hb) as [Hl | Hl]; [lia|].
  rewrite Hl in Hc.
  apply inRange_widen with (hi' := 0xBF) in Hc; [|apply upperBoundary_le].
  assert (32 <= N.land (b2n c1) 0x3F); [|lia].
  clear - Hc. revert Hc. bytes c1.
Qed.

Lemma four_bytes_high b c1 c2 c3 :
  inRange 0xF0 0xF4 (b2n b) = true ->
  inRange (lowerBoundary (b2n b)) (upperBoundary (b2n b)) (b2n c1) = true ->
  0x80 <= addCont (addCont (addCont (N.land (b2n b) 0x7) (b2n c1)) (b2n c2))
                  (b2n c3).
Proof.
  intros Hb Hc.
  assert (H1 : 1 <= addCont (N.land (b2n b) 0x7) (b2n c1)).
  { apply first_cont_pos with (b := b); [|assumption].
    destruct (lead4_bits b Hb) as [Hl | Hl]; [now left | right].
    rewrite Hl. lia. }
  pose proof (addCont_ge_l (addCont (N.land (b2n b) 0x7) (b2n c1)) (b2n c2)).
  pose proof (addCont_ge_l
                (addCont (addCont (N.land (b2n b) 0x7) (b2n c1)) (b2n c2))
                (b2n c3)).
  lia.
Qed.

(** A decoded code point is U+0080 or above, or is one of the bytes. *)
Lemma utf8Decode_low (n : nat) : forall bytes,
  (List.length bytes <= n)%nat ->
  forall cp, In cp (utf8Decode bytes) ->
  0x80 <= cp \/ exists b, In b bytes /\ b2n b = cp.
Proof.
  induction n as [|n IH]; intros bytes Hlen cp Hin.
  { destruct bytes; [destruct Hin | cbn in Hlen; lia]. }
  destruct bytes as [|b r]; [destruct Hin|].
  cbn [utf8Decode] in Hin. cbn [List.length] in Hlen.
  assert (Htail : forall tail, (List.length tail <= n)%nat ->
            (forall x, In x tail -> In x (b :: r)) ->
            In cp (utf8Decode tail) ->
            0x80 <= cp \/ exists b', In b' (b :: r) /\ b2n b' = cp).
  { intros tail Hl Hsub Ht.
    destruct (IH tail Hl cp Ht) as [H | (b' & Hb' & He)]; [now left|].
    right. exists b'. auto. }
  assert (Hrep : 0x80 <= REPLACEMENT) by (unfold REPLACEMENT; lia).
  repeat match type of Hin with
         | In _ (if ?c then _ else _) => destruct c eqn:?
         | In _ (match ?l with [] => _ | _ :: _ => _ end) =>
           destruct l; cbn [List.length] in Hlen
         end;
    (destruct Hin as [<- | Hin];
     [ first [ now left
             | left; now apply two_bytes_high
             | left; now apply three_bytes_high
             | left; now apply four_bytes_high
             | right; exists b; split; [now left | reflexivity] ]
     | first [ destruct Hin
             | apply Htail in Hin;
               [ exact Hin
               | cbn [List.length]; lia
               | intros x Hx; cbn [In] in *; tauto ] ] ]).
Qed.

Lemma utf16_high cp u : 0x80 <= cp -> In u (utf16 cp) -> 0x80 <= u.
Proof.
  unfold utf16. intros H Hin.
  destruct (cp <? 0x10000); cbn [In] in Hin;
    repeat (destruct Hin as [<- | Hin];
            [first [assumption | etransitivity; [|apply N.le_add_r]; lia]|]);
    destruct Hin.
Qed.

Lemma utf16_low cp : cp < 0x80 -> utf16 cp = [cp].
Proof.
  intros H. unfold utf16.
  replace (cp <? 0x10000) with true by (symmetry; apply N.ltb_lt; lia).
  reflexivity.
Qed.

(** A code unit below U+0080 of the decoded text is a byte of the buffer:
    decoding never makes up a space or a NUL. *)
Lemma toString_low buf u :
  In u (toString buf) -> u < 0x80 -> exists b, In b buf /\ b2n b = u.
Proof.
  unfold toString. intros Hin Hu. apply in_flat_map in Hin as (cp & Hcp & Hin).
  destruct (utf8Decode_low _ buf (le_n _) cp Hcp) as [H | (b & Hb & He)].
  - pose proof (utf16_high _ _ H Hin). lia.
  - exists b. split; [assumption|].
    assert (cp < 0x80 \/ 0x80 <= cp) as [Hlo | Hhi] by lia.
    + rewrite utf16_low in Hin by assumption. destruct Hin as [<- | []].
      assumption.
    + pose proof (utf16_high _ _ Hhi Hin). lia.
Qed.

Lemma b2n_inj a b : b2n a = b2n b -> a = b.
Proof.
  unfold b2n. intros H. apply (f_equal Byte.of_N) in H.
  rewrite !Byte.of_to_N in H. congruence.
Qed.

Lemma toString_no_space buf : ~ In x20 buf -> ~ In SPACE (toString buf).
Proof.
  intros H Hin. apply toString_low in Hin as (b & Hb & He).
  - change SPACE with (b2n x20) in He. apply b2n_inj in He. now subst.
  - unfold SPACE. lia.
Qed.

Lemma toString_no_nul buf : ~ In x00 buf -> ~ In 0 (toString buf).
Proof.
  intros H Hin. apply toString_low in Hin as (b & Hb & He).
  - change 0 with (b2n x00) in He. apply b2n_inj in He. now subst.
  - lia.
Qed.

End DecodeFacts.

(** ** The decoder on a header, a zero byte and a payload *)

Module DecoderFacts.
Import Buffer BufferFacts LoopFacts.

Lemma inflateCallback_layout hdr payload :
  ~ In x00 hdr ->
  inflateCallback (inr (hdr ++ x00 :: payload)) = checked hdr payload.
Proof.
  intros H. unfold inflateCallback, checked.
  pose proof (length_nonneg hdr) as Hh.
  rewrite (indexOf_at _ [] hdr payload x00 0) by auto.
  rewrite eqb_m1 by lia.
  rewrite (slice_at _ [] hdr (x00 :: payload) 0) by auto.
  replace (0 + length hdr + 1) with (length (hdr ++ [x00])) by len.
  replace (hdr ++ x00 :: payload) with ((hdr ++ [x00]) ++ payload)
    by (now rewrite <- app_assoc).
  rewrite sliceFrom_after.
  destruct (jsnum_eqb _ _); reflexivity.
Qed.

Lemma inflateCallback_no_zero d :
  ~ In x00 d -> inflateCallback (inr d) = Rejected invalidFormat.
Proof.
  intros H. unfold inflateCallback.
  rewrite (indexOf_none d [] d x00 0) by auto. reflexivity.
Qed.

(** Every buffer with a zero byte is a header, the byte and a payload. *)
Lemma layout d :
  In x00 d -> exists hdr payload, d = hdr ++ x00 :: payload /\ ~ In x00 hdr.
Proof.
  intros H. destruct (first_occurrence x00 d) as [Hn | (a & b & -> & Ha)].
  - contradiction.
  - now exists a, b.
Qed.

Lemma jsnum_eqb_eq a b :
  jsnum_eqb a b = true <-> exists z, a = Num z /\ b = Num z.
Proof.
  destruct a as [|x], b as [|y]; cbn; split;
    try discriminate; try (intros (z & H1 & H2); discriminate).
  - intros H. apply Z.eqb_eq in H. subst. now exists y.
  - intros (z & H1 & H2). injection H1 as ->. injection H2 as ->.
    apply Z.eqb_refl.
Qed.

Lemma checked_resolved hdr payload o :
  checked hdr payload = Resolved o ->
  o = {| type := typeToken (toString hdr);
         size := Num (length payload);
         content := payload |}
  /\ parseInt (sizeToken (toString hdr)) = Num (length payload).
Proof.
  unfold checked. destruct (jsnum_eqb _ _) eqn:E; [|discriminate].
  apply jsnum_eqb_eq in E as (z & E1 & E2). injection E2 as <-.
  rewrite E1. intros H. injection H as <-. auto.
Qed.

Lemma checked_rejected hdr payload :
  parseInt (sizeToken (toString hdr)) <> Num (length payload) ->
  checked hdr payload = Rejected sizeMismatch.
Proof.
  intros H. unfold checked. destruct (jsnum_eqb _ _) eqn:E; [|reflexivity].
  apply jsnum_eqb_eq in E as (z & E1 & E2). injection E2 as <-. contradiction.
Qed.

Lemma checked_accepted hdr payload :
  parseInt (sizeToken (toString hdr)) = Num (length payload) ->
  checked hdr payload
  = Resolved {| type := typeToken (toString hdr);
                size := Num (length payload);
                content := payload |}.
Proof.
  intros H. unfold checked. rewrite H. cbn [jsnum_eqb]. now rewrite Z.eqb_refl.
Qed.

(** A resolved object always has the size of its content. *)
Lemma inflateCallback_resolved result o :
  inflateCallback result = Resolved o -> size o = Num (length (content o)).
Proof.
  destruct result as [err | d]; [discriminate|].
  destruct (in_dec Byte.byte_eq_dec x00 d) as [Hin | Hn].
  - destruct (layout d Hin) as (hdr & payload & -> & Hh).
    rewrite inflateCallback_layout by assumption. intros H.
    apply checked_resolved in H as [-> _]. reflexivity.
  - rewrite inflateCallback_no_zero by assumption. discriminate.
Qed.

(** A text without space is the only piece of its split. *)
Lemma split_no_space s : ~ In SPACE s -> split s = [s].
Proof.
  induction s as [|c s IH]; intros H; cbn [split]; [reflexivity|].
  destruct (N.eqb c SPACE) eqn:E.
  - apply N.eqb_eq in E. subst. exfalso. apply H. now left.
  - rewrite IH by (intros Hin; apply H; now right). reflexivity.
Qed.

Lemma sizeToken_no_space hdr :
  ~ In x20 hdr -> parseInt (sizeToken (toString hdr)) = NaN.
Proof.
  intros H. unfold sizeToken.
  rewrite split_no_space by now apply DecodeFacts.toString_no_space.
  reflexivity.
Qed.

End DecoderFacts.

(** ** What the loop pushes *)

Module EntryFacts.
Import Buffer BufferFacts LoopFacts WhileFacts.

Lemma whileEntries_readFrom fuel : forall content offset entries result,
  0 <= offset -> Forall (readFrom content) entries ->
  whileEntries fuel content offset entries = Some result ->
  Forall (readFrom content) result.
Proof.
  induction fuel as [|fuel IH]; intros content offset entries result H0 Hacc H.
  - discriminate.
  - cbn [whileEntries] in H. destruct (offset <? length content).
    2:{ now injection H as <-. }
    destruct (loopBody content offset) as [|e o'] eqn:Hb.
    { now injection H as <-. }
    pose proof (loopBody_advances _ _ _ _ H0 Hb) as Hadv.
    destruct (loopBody_Push_inv _ _ _ _ H0 Hb)
      as (pre & r & rest & Hc & _ & Hwf & He & _).
    apply IH in H; [assumption | lia |].
    apply Forall_app. split; [assumption|].
    constructor; [|constructor]. now exists pre, r, rest.
Qed.

Lemma treeEntries_readFrom content entries :
  treeEntries content = Some entries -> Forall (readFrom content) entries.
Proof.
  intros H. apply (whileEntries_readFrom _ _ 0 [] _ (Z.le_refl 0)) in H; auto.
Qed.

(** A buffer is truncated or starts with a well-formed entry. *)
Lemma truncated_or_entry t :
  Truncated t \/ exists r rest, t = encode r ++ rest /\ wellFormed r.
Proof.
  destruct (first_occurrence x20 t) as [Hs | (m & u & -> & Hm)].
  { left. now apply no_space. }
  destruct (first_occurrence x00 u) as [Hz | (n & v & -> & Hn)].
  { left. now apply no_zero. }
  destruct (Nat.le_gt_cases 20 (List.length v)) as [Hv | Hv].
  - right. exists {| rawMode := m; rawName := n; rawHash := firstn 20 v |}.
    exists (skipn 20 v). split.
    + unfold encode. cbn [rawMode rawName rawHash].
      rewrite <- (firstn_skipn 20 v) at 1. reassoc.
    + repeat split; auto. cbn [rawHash]. now apply firstn_length_le.
  - left. now apply short_hash.
Qed.

Lemma short_truncated t : (List.length t < 22)%nat -> Truncated t.
Proof.
  intros H. destruct (truncated_or_entry t) as [Ht | (r & rest & -> & Hwf)];
    [assumption|].
  exfalso. destruct Hwf as (_ & _ & Hh). unfold encode in H.
  rewrite !List.length_app in H. cbn [List.length] in H.
  rewrite !List.length_app in H. cbn [List.length] in H. lia.
Qed.

(** Every payload is a run of well-formed entries and a truncated tail. *)
Lemma payload_shape (n : nat) : forall content,
  (List.length content <= n)%nat ->
  exists rs t,
    content = encodeAll rs ++ t /\ Forall wellFormed rs /\ Truncated t.
Proof.
  induction n as [|n IH]; intros content Hlen.
  - exists [], content. repeat split; auto. apply short_truncated. lia.
  - destruct (truncated_or_entry content) as [Ht | (r & rest & -> & Hwf)].
    + exists [], content. auto.
    + destruct (IH rest) as (rs & t & -> & Hrs & Ht).
      { unfold encode in Hlen. rewrite !List.length_app in Hlen.
        cbn [List.length] in Hlen. lia. }
      exists (r :: rs), t. cbn [encodeAll flat_map]. fold (encodeAll rs).
      rewrite <- app_assoc. auto.
Qed.

End EntryFacts.

(** ** Strings: comparison, classification, hexadecimal *)

Module StringFacts.

Lemma jsstring_eqb_eq a : forall b, jsstring_eqb a b = true <-> a = b.
Proof.
  induction a as [|x a IH]; intros [|y b]; cbn [jsstring_eqb];
    try (split; [discriminate | discriminate]); [tauto|].
  rewrite andb_true_iff, N.eqb_eq, IH. split.
  - intros [-> ->]. reflexivity.
  - intros H. injection H as -> ->. auto.
Qed.

Lemma jsstring_eqb_neq a b : a <> b -> jsstring_eqb a b = false.
Proof.
  intros H. destruct (jsstring_eqb a b) eqn:E; [|reflexivity].
  apply jsstring_eqb_eq in E. contradiction.
Qed.

Lemma typeStrOf_unlisted m :
  ~ In m knownModes -> typeStrOf m = lit "unknown".
Proof.
  intros H. unfold typeStrOf.
  rewrite !jsstring_eqb_neq; [reflexivity | ..];
    intros ->; apply H; unfold knownModes; cbn [In]; tauto.
Qed.

Lemma hexDigit_lower n : (n < 16)%N -> isLowerHexDigit (hexDigit n) = true.
Proof.
  intros H.
  assert (Hn : In n (map N.of_nat (seq 0 16))).
  { rewrite <- (N2Nat.id n). apply in_map, in_seq. lia. }
  cbn in Hn. repeat (destruct Hn as [<- | Hn]; [reflexivity|]). destruct Hn.
Qed.

Lemma toHex_length buf : List.length (toHex buf) = (2 * List.length buf)%nat.
Proof.
  induction buf as [|b buf IH]; [reflexivity|].
  unfold toHex in *. cbn [flat_map List.length app]. lia.
Qed.

Lemma b2n_lt b : (b2n b < 256)%N.
Proof. destruct b; reflexivity. Qed.

Lemma toHex_lower buf : Forall (fun c => isLowerHexDigit c = true) (toHex buf).
Proof.
  induction buf as [|b buf IH]; [constructor|].
  unfold toHex in *. cbn [flat_map app]. pose proof (b2n_lt b).
  constructor; [|constructor; [|assumption]]; apply hexDigit_lower.
  - apply N.Div0.div_lt_upper_bound. lia.
  - apply N.mod_lt. lia.
Qed.

(** A byte of 0x80 and above, alone, is no UTF-8 text. *)
Lemma toString_lone_byte b : (0x80 <= b2n b)%N -> toString [b] = [REPLACEMENT].
Proof.
  destruct b; vm_compute; intros H;
    first [reflexivity | exfalso; apply H; reflexivity].
Qed.

(** Absence of a byte, by computation. *)
Lemma absent (v : byte) (l : Buffer.t) :
  existsb (Byte.eqb v) l = false -> ~ In v l.
Proof.
  intros H Hin. apply Bool.not_true_iff_false in H. apply H.
  apply existsb_exists. exists v. split; [assumption|].
  now apply Byte.byte_dec_lb.
Qed.

Lemma helloEntry_wellFormed : wellFormed helloEntry.
Proof. repeat split; try (apply absent; reflexivity). Qed.

Lemma brokenNameEntry_wellFormed : wellFormed brokenNameEntry.
Proof. repeat split; try (apply absent; reflexivity). Qed.

Lemma oddModeEntry_wellFormed : wellFormed oddModeEntry.
Proof. repeat split; try (apply absent; reflexivity). Qed.

End StringFacts.

(** * The claims *)

Module Claims.
Import BufferFacts LoopFacts WhileFacts DecodeFacts DecoderFacts EntryFacts.
Import StringFacts.

(** ** The object decoder *)

(** C1, as stated, fails: the rejection for a size mismatch is the plain
    error ["Size mismatch"].  It is the same value whether the header
    declares 4 or 3 bytes for the payload ["hello"], so the declared and
    the actual length cannot be read off it. *)
Lemma size_mismatch_carries_no_lengths :
  inflateCallback (inr blob4hello) = Rejected (Error "Size mismatch")
  /\ inflateCallback (inr blob3hello) = Rejected (Error "Size mismatch")
  /\ ~ exists declared : JsError -> Z,
         (forall err, inflateCallback (inr blob4hello) = Rejected err ->
                      declared err = 4)
         /\ (forall err, inflateCallback (inr blob3hello) = Rejected err ->
                         declared err = 3).
Proof.
  assert (H4 : inflateCallback (inr blob4hello)
               = Rejected (Error "Size mismatch")) by reflexivity.
  assert (H3 : inflateCallback (inr blob3hello)
               = Rejected (Error "Size mismatch")) by reflexivity.
  repeat split; try assumption.
  intros (declared & D4 & D3).
  specialize (D4 _ H4). specialize (D3 _ H3). lia.
Qed.

(** C1 (amended).  Whenever [parseGitObject] resolves, the [size] of the
    object is the length of its [content]; for a decompressed stream made
    of a header without zero byte, a zero byte and a payload, a resolved
    object holds exactly that payload, and a size read from the header
    that differs from the payload length (or is no number) rejects with
    the error ["Size mismatch"], which carries no lengths.  In particular
    ["blob 5\0hello"] resolves to type ["blob"], size 5, content
    ["hello"], and ["blob 4\0hello"] rejects with ["Size mismatch"]. *)
Theorem decoded_size_is_content_length :
  (forall readFile inflate objectPath o,
      parseGitObject readFile inflate objectPath = Resolved o ->
      size o = Num (Buffer.length (content o)))
  /\ (forall hdr payload o,
         ~ In x00 hdr ->
         inflateCallback (inr (hdr ++ x00 :: payload)) = Resolved o ->
         content o = payload /\ size o = Num (Buffer.length payload)
         /\ parseInt (sizeToken (toString hdr)) = Num (Buffer.length payload))
  /\ (forall hdr payload,
         ~ In x00 hdr ->
         parseInt (sizeToken (toString hdr)) <> Num (Buffer.length payload) ->
         inflateCallback (inr (hdr ++ x00 :: payload))
         = Rejected (Error "Size mismatch"))
  /\ inflateCallback (inr blob5hello)
     = Resolved {| type := lit "blob"; size := Num 5; content := hello |}
  /\ inflateCallback (inr blob4hello) = Rejected (Error "Size mismatch").
Proof.
  split; [|split; [|split; [|split; reflexivity]]].
  - intros readFile inflate objectPath o.
    unfold parseGitObject, readFileCallback.
    destruct (readFile objectPath) as [err | compressed]; [discriminate|].
    apply inflateCallback_resolved.
  - intros hdr payload o Hz Hr.
    rewrite inflateCallback_layout in Hr by assumption.
    apply checked_resolved in Hr as [-> Hs]. auto.
  - intros hdr payload Hz Hs. rewrite inflateCallback_layout by assumption.
    now apply checked_rejected.
Qed.

(** The size invariant at work on a stored (uncompressed) sample, and the
    rejection of a header that declares 3 bytes for ["hello"]. *)
Lemma decoded_size_is_content_length_witness :
  parseGitObject (fun _ => inr blob5hello) (fun c => inr c) "2b/ab"
  = Resolved {| type := lit "blob"; size := Num 5; content := hello |}
  /\ size {| type := lit "blob"; size := Num 5; content := hello |}
     = Num (Buffer.length hello)
  /\ ~ In x00 (ascii_bytes "blob 3")
  /\ parseInt (sizeToken (toString (ascii_bytes "blob 3")))
     <> Num (Buffer.length hello)
  /\ inflateCallback (inr blob3hello) = Rejected (Error "Size mismatch").
Proof.
  assert (Hz : ~ In x00 (ascii_bytes "blob 3")) by (apply absent; reflexivity).
  assert (Hs : parseInt (sizeToken (toString (ascii_bytes "blob 3")))
               <> Num (Buffer.length hello)) by (vm_compute; discriminate).
  assert (Hr : parseGitObject (fun _ => inr blob5hello) (fun c => inr c) "2b/ab"
               = Resolved {| type := lit "blob"; size := Num 5;
                             content := hello |}) by reflexivity.
  destruct decoded_size_is_content_length as (Hsize & _ & Hrej & _).
  split; [exact Hr | split; [|split; [exact Hz | split; [exact Hs|]]]].
  - exact (Hsize _ _ _ _ Hr).
  - exact (Hrej (ascii_bytes "blob 3") hello Hz Hs).
Defined.

(** C2, as stated, fails: the header ["foo 5"], whose type token is none
    of the four kinds, is accepted and the token is kept as the type; the
    size token ["5abc"] is read as 5; and a header without space is
    rejected with ["Size mismatch"], not with the error of a missing
    terminator. *)
Lemma unknown_kind_is_accepted :
  isKnownKind (lit "foo") = false
  /\ inflateCallback (inr foo5hello)
     = Resolved {| type := lit "foo"; size := Num 5; content := hello |}
  /\ inflateCallback (inr blob5abc)
     = Resolved {| type := lit "blob"; size := Num 5; content := hello |}
  /\ inflateCallback (inr blobNoSpace) = Rejected (Error "Size mismatch")
  /\ Error "Size mismatch" <> Error "Invalid Git object format".
Proof. repeat split; try reflexivity. discriminate. Qed.

(** C2 (amended).  The decoder rejects with ["Invalid Git object format"]
    exactly when the decompressed stream has no zero byte.  When there is
    one, it rejects, with ["Size mismatch"], exactly when [parseInt] of the
    second space-separated token of the header is not the payload length;
    that is the case of a header without space and of a size token from
    which [parseInt] reads no number, while digits followed by other
    characters are read as a number.  Otherwise it resolves, and the type
    is the first token whatever it is: it is not compared with the four
    kinds. *)
Theorem header_rejections :
  (forall d,
      inflateCallback (inr d) = Rejected (Error "Invalid Git object format")
      <-> ~ In x00 d)
  /\ (forall hdr payload,
         ~ In x00 hdr ->
         (inflateCallback (inr (hdr ++ x00 :: payload))
          = Rejected (Error "Size mismatch")
          <-> parseInt (sizeToken (toString hdr))
              <> Num (Buffer.length payload))
         /\ (parseInt (sizeToken (toString hdr)) = Num (Buffer.length payload)
             -> inflateCallback (inr (hdr ++ x00 :: payload))
                = Resolved {| type := typeToken (toString hdr);
                              size := Num (Buffer.length payload);
                              content := payload |}))
  /\ (forall hdr, ~ In x20 hdr -> parseInt (sizeToken (toString hdr)) = NaN)
  /\ parseInt (Some (lit "abc")) = NaN
  /\ parseInt (Some (lit "5abc")) = Num 5.
Proof.
  split; [|split; [|split; [|split; reflexivity]]].
  - intros d. split.
    + intros H Hin. destruct (layout d Hin) as (hdr & payload & -> & Hh).
      rewrite inflateCallback_layout in H by assumption.
      unfold checked in H. destruct (jsnum_eqb _ _); discriminate.
    + apply inflateCallback_no_zero.
  - intros hdr payload Hz. rewrite inflateCallback_layout by assumption.
    split; [split|].
    + intros H E. rewrite checked_accepted in H by assumption. discriminate.
    + apply checked_rejected.
    + apply checked_accepted.
  - apply sizeToken_no_space.
Qed.

(** The three cases on samples: no zero byte; a header without space; a
    header of unknown kind with the right size. *)
Lemma header_rejections_witness :
  (~ In x00 hello
   /\ inflateCallback (inr hello) = Rejected (Error "Invalid Git object format"))
  /\ (~ In x00 (ascii_bytes "blob") /\ ~ In x20 (ascii_bytes "blob")
      /\ inflateCallback (inr blobNoSpace) = Rejected (Error "Size mismatch"))
  /\ (~ In x00 (ascii_bytes "foo 5")
      /\ parseInt (sizeToken (toString (ascii_bytes "foo 5")))
         = Num (Buffer.length hello)
      /\ inflateCallback (inr foo5hello)
         = Resolved {| type := typeToken (toString (ascii_bytes "foo 5"));
                       size := Num (Buffer.length hello);
                       content := hello |}).
Proof.
  assert (Hz1 : ~ In x00 hello) by (apply absent; reflexivity).
  assert (Hz2 : ~ In x00 (ascii_bytes "blob")) by (apply absent; reflexivity).
  assert (Hs2 : ~ In x20 (ascii_bytes "blob")) by (apply absent; reflexivity).
  assert (Hz3 : ~ In x00 (ascii_bytes "foo 5")) by (apply absent; reflexivity).
  assert (Hp3 : parseInt (sizeToken (toString (ascii_bytes "foo 5")))
                = Num (Buffer.length hello)) by reflexivity.
  destruct header_rejections as (Hfmt & Hsize & Hnan & _).
  split; [|split].
  - split; [exact Hz1 | exact (proj2 (Hfmt hello) Hz1)].
  - split; [exact Hz2 | split; [exact Hs2|]].
    apply (proj2 (proj1 (Hsize (ascii_bytes "blob") hello Hz2))).
    rewrite (Hnan _ Hs2). discriminate.
  - split; [exact Hz3 | split; [exact Hp3|]].
    exact (proj2 (Hsize (ascii_bytes "foo 5") hello Hz3) Hp3).
Defined.

(** ** The tree entry parser *)

(** C3, as stated, fails on the label: for the payload
    ["100644 hello.txt\0"] followed by the bytes 0..19 the one entry has
    the type string ["blob"], not ["regular file (blob)"]. *)
Lemma hello_entry_is_labelled_blob :
  encode helloEntry = ascii_bytes "100644 hello.txt" ++ x00 :: bytes0to19
  /\ treeEntries (encode helloEntry) = Some [entryOf helloEntry]
  /\ typeStr (entryOf helloEntry) = lit "blob"
  /\ typeStr (entryOf helloEntry) <> lit "regular file (blob)".
Proof. repeat split; try reflexivity. discriminate. Qed.

(** C3 (amended).  On the concatenation of N well-formed entries (a mode
    without space byte, a space, a name without zero byte, a zero byte, 20
    hash bytes) the loop leaves exactly the N entries in [entries], in
    the order of the payload.  In particular ["100644 hello.txt\0"]
    followed by the bytes 0..19 gives one entry of mode ["100644"], type
    string ["blob"], name ["hello.txt"] and the lowercase hexadecimal
    digits of the 20 bytes as hash, and the text returned is the one line
    of that entry. *)
Theorem well_formed_entries_are_all_read :
  (forall rs, Forall wellFormed rs ->
      treeEntries (encodeAll rs) = Some (map entryOf rs))
  /\ (forall rs entries, Forall wellFormed rs ->
         treeEntries (encodeAll rs) = Some entries ->
         List.length entries = List.length rs)
  /\ treeEntries (ascii_bytes "100644 hello.txt" ++ x00 :: bytes0to19)
     = Some [ {| mode := lit "100644";
                 typeStr := lit "blob";
                 hash := lit "000102030405060708090a0b0c0d0e0f10111213";
                 name := lit "hello.txt" |} ]
  /\ parseTreeObject (ascii_bytes "100644 hello.txt" ++ x00 :: bytes0to19)
     = Some (lit "100644 blob                 000102030405060708090a0b0c0d0e0f10111213    hello.txt").
Proof.
  assert (H : forall rs, Forall wellFormed rs ->
              treeEntries (encodeAll rs) = Some (map entryOf rs)).
  { intros rs Hwf. rewrite <- (app_nil_r (encodeAll rs)).
    apply treeEntries_encodeAll; [assumption|]. apply no_space. intros []. }
  split; [exact H | split; [|split; reflexivity]].
  intros rs entries Hwf He. rewrite H in He by assumption.
  injection He as <-. apply length_map.
Qed.

(** Two well-formed entries, the second with a name that is no UTF-8. *)
Lemma well_formed_entries_are_all_read_witness :
  Forall wellFormed [helloEntry; brokenNameEntry]
  /\ treeEntries (encodeAll [helloEntry; brokenNameEntry])
     = Some [entryOf helloEntry; entryOf brokenNameEntry]
  /\ List.length [entryOf helloEntry; entryOf brokenNameEntry] = 2%nat.
Proof.
  assert (Hwf : Forall wellFormed [helloEntry; brokenNameEntry]).
  { constructor; [apply helloEntry_wellFormed|].
    constructor; [apply brokenNameEntry_wellFormed | constructor]. }
  destruct well_formed_entries_are_all_read as (Hall & Hlen & _ & _).
  split; [exact Hwf | split].
  - exact (Hall _ Hwf).
  - exact (Hlen _ _ Hwf (Hall _ Hwf)).
Defined.

(** C4.  The parser has no error result: on every payload the loop is
    left with some array [entries] and [parseTreeObject] returns the lines
    of those entries joined by newlines.  Every payload is a run of
    well-formed entries followed by a tail on which a field cannot be read
    in full (no space byte; no zero byte after the space; fewer than 20
    bytes after the zero byte), and the entries returned are exactly those
    of the run: the partial entry is dropped.  In particular one valid
    entry followed by any 5 bytes gives exactly that entry. *)
Theorem truncated_tail_is_dropped :
  (forall content, exists entries,
      treeEntries content = Some entries
      /\ parseTreeObject content = Some (join [LF] (map entryLine entries)))
  /\ (forall rs t, Forall wellFormed rs -> Truncated t ->
         treeEntries (encodeAll rs ++ t) = Some (map entryOf rs))
  /\ (forall content, exists rs t,
         content = encodeAll rs ++ t /\ Forall wellFormed rs /\ Truncated t)
  /\ (forall r garbage, wellFormed r -> List.length garbage = 5%nat ->
         treeEntries (encode r ++ garbage) = Some [entryOf r]).
Proof.
  split; [|split; [|split]].
  - intros content. destruct (treeEntries_total content) as (entries & He).
    exists entries. split; [assumption|].
    unfold parseTreeObject, treeEntries in *.
    change (@nil jsstring) with (map entryLine []).
    rewrite whileLoop_lines, He. reflexivity.
  - apply treeEntries_encodeAll.
  - intros content. apply (payload_shape (List.length content)). lia.
  - intros r garbage Hwf Hg.
    pose proof (treeEntries_encodeAll [r] garbage) as H.
    cbn [encodeAll flat_map map] in H. rewrite app_nil_r in H.
    apply H; [constructor; [assumption | constructor]|].
    apply short_truncated. lia.
Qed.

(** One valid entry followed by the 5 bytes of ["12 45"]. *)
Lemma truncated_tail_is_dropped_witness :
  wellFormed helloEntry
  /\ List.length (ascii_bytes "12 45") = 5%nat
  /\ treeEntries (encode helloEntry ++ ascii_bytes "12 45")
     = Some [entryOf helloEntry].
Proof.
  destruct truncated_tail_is_dropped as (_ & _ & _ & Hfive).
  split; [exact helloEntry_wellFormed | split; [reflexivity|]].
  exact (Hfive helloEntry (ascii_bytes "12 45") helloEntry_wellFormed eq_refl).
Defined.

(** C5, as stated, fails on the labels: the mode ["40000"] gets the type
    string ["tree"], not ["directory (tree)"]. *)
Lemma directory_is_labelled_tree :
  typeStrOf (lit "40000") = lit "tree"
  /\ typeStrOf (lit "40000") <> lit "directory (tree)".
Proof. split; [reflexivity | discriminate]. Qed.

(** C5 (amended).  The type string is a total function of the mode, by
    exact comparison of strings: ["40000"] gives ["tree"], ["100644"]
    gives ["blob"], ["100755"] gives ["blob (executable)"], ["120000"]
    gives ["symlink"], ["160000"] gives ["commit (submodule)"], and every
    other mode, such as ["99999"] or ["040000"], gives ["unknown"].  Every
    entry the loop pushes carries the type string of its own mode, and an
    entry of unlisted mode is pushed with its mode as decoded. *)
Theorem mode_classification :
  typeStrOf (lit "40000") = lit "tree"
  /\ typeStrOf (lit "100644") = lit "blob"
  /\ typeStrOf (lit "100755") = lit "blob (executable)"
  /\ typeStrOf (lit "120000") = lit "symlink"
  /\ typeStrOf (lit "160000") = lit "commit (submodule)"
  /\ typeStrOf (lit "99999") = lit "unknown"
  /\ typeStrOf (lit "040000") = lit "unknown"
  /\ (forall m, ~ In m knownModes -> typeStrOf m = lit "unknown")
  /\ (forall content entries e,
         treeEntries content = Some entries -> In e entries ->
         typeStr e = typeStrOf (mode e))
  /\ (forall r, wellFormed r -> ~ In (toString (rawMode r)) knownModes ->
         exists e, treeEntries (encode r) = Some [e]
                   /\ mode e = toString (rawMode r)
                   /\ typeStr e = lit "unknown").
Proof.
  repeat (split; [reflexivity|]). split; [|split].
  - apply typeStrOf_unlisted.
  - intros content entries e He Hin.
    apply treeEntries_readFrom in He. rewrite Forall_forall in He.
    destruct (He e Hin) as (pre & r & rest & _ & _ & ->). reflexivity.
  - intros r Hwf Hm. exists (entryOf r). split; [|split].
    + pose proof (treeEntries_encodeAll [r] []) as H.
      cbn [encodeAll flat_map map] in H. rewrite !app_nil_r in H.
      apply H; [constructor; [assumption | constructor]|].
      apply no_space. intros [].
    + reflexivity.
    + cbn [entryOf typeStr]. now apply typeStrOf_unlisted.
Qed.

(** An entry of mode ["99999"]. *)
Lemma mode_classification_witness :
  wellFormed oddModeEntry
  /\ ~ In (toString (rawMode oddModeEntry)) knownModes
  /\ exists e, treeEntries (encode oddModeEntry) = Some [e]
               /\ mode e = lit "99999" /\ typeStr e = lit "unknown".
Proof.
  assert (Hm : ~ In (toString (rawMode oddModeEntry)) knownModes).
  { vm_compute. intros H.
    repeat (destruct H as [H | H]; [discriminate|]). exact H. }
  destruct mode_classification as (_ & _ & _ & _ & _ & _ & _ & _ & _ & Hodd).
  split; [exact oddModeEntry_wellFormed | split; [exact Hm|]].
  exact (Hodd oddModeEntry oddModeEntry_wellFormed Hm).
Defined.

(** C7.  Decoding a name never fails and never moves the cursor: at the
    start of an entry the body pushes the entry with the decoded name,
    whatever the bytes of the name, and leaves the cursor behind the 20
    hash bytes, so the entries before and after it are all read.  Bytes
    that are no UTF-8 are replaced by U+FFFD: a lone byte of 0x80 or above
    decodes to that one character. *)
Theorem undecodable_names_do_not_stop_parsing :
  (forall pre r rest, wellFormed r ->
      loopBody (pre ++ encode r ++ rest) (Buffer.length pre)
      = Push (entryOf r)
             (Buffer.length pre + Buffer.length (rawMode r) + 1
              + Buffer.length (rawName r) + 1 + 20)
      /\ name (entryOf r) = toString (rawName r))
  /\ (forall rs1 r rs2,
         Forall wellFormed rs1 -> wellFormed r -> Forall wellFormed rs2 ->
         treeEntries (encodeAll rs1 ++ encode r ++ encodeAll rs2)
         = Some (map entryOf rs1 ++ entryOf r :: map entryOf rs2))
  /\ (forall b, (0x80 <= b2n b)%N -> toString [b] = [REPLACEMENT])
  /\ name (entryOf brokenNameEntry) = [REPLACEMENT; REPLACEMENT].
Proof.
  split; [|split; [|split; [|reflexivity]]].
  - intros pre r rest Hwf. split; [|reflexivity].
    rewrite loopBody_entry by assumption. f_equal.
    rewrite length_encode. destruct Hwf as (_ & _ & Hh).
    unfold Buffer.length. lia.
  - intros rs1 r rs2 H1 Hr H2.
    pose proof (treeEntries_encodeAll (rs1 ++ r :: rs2) []) as H.
    unfold encodeAll in *. rewrite flat_map_app in H.
    cbn [flat_map] in H. rewrite app_nil_r in H.
    rewrite H.
    + now rewrite map_app.
    + apply Forall_app. split; [assumption | now constructor].
    + apply no_space. intros [].
  - apply toString_lone_byte.
Qed.

(** An entry with the name bytes FF FE between two readable ones. *)
Lemma undecodable_names_do_not_stop_parsing_witness :
  Forall wellFormed [helloEntry] /\ wellFormed brokenNameEntry
  /\ Forall wellFormed [oddModeEntry]
  /\ treeEntries (encodeAll [helloEntry] ++ encode brokenNameEntry
                  ++ encodeAll [oddModeEntry])
     = Some [entryOf helloEntry; entryOf brokenNameEntry;
             entryOf oddModeEntry]
  /\ (0x80 <= b2n xff)%N /\ toString [xff] = [REPLACEMENT].
Proof.
  assert (H1 : Forall wellFormed [helloEntry])
    by (constructor; [apply helloEntry_wellFormed | constructor]).
  assert (H2 : Forall wellFormed [oddModeEntry])
    by (constructor; [apply oddModeEntry_wellFormed | constructor]).
  assert (Hb : (0x80 <= b2n xff)%N) by (vm_compute; discriminate).
  destruct undecodable_names_do_not_stop_parsing as (_ & Hall & Hlone & _).
  split; [exact H1 | split; [exact brokenNameEntry_wellFormed|]].
  split; [exact H2 | split; [|split; [exact Hb|]]].
  - exact (Hall _ _ _ H1 brokenNameEntry_wellFormed H2).
  - exact (Hlone xff Hb).
Defined.

(** C8.  The hash of every entry the loop pushes is the hexadecimal text
    of a slice of exactly 20 bytes of the payload: 40 characters, each a
    digit or a lowercase letter from a to f. *)
Theorem hash_is_forty_lowercase_hex_digits content entries e :
  treeEntries content = Some entries -> In e entries ->
  exists offset,
    0 <= offset /\ offset + 20 <= Buffer.length content
    /\ List.length (Buffer.slice content offset (offset + 20)) = 20%nat
    /\ hash e = toHex (Buffer.slice content offset (offset + 20))
    /\ List.length (hash e) = 40%nat
    /\ Forall (fun c => isLowerHexDigit c = true) (hash e).
Proof.
  intros He Hin. apply treeEntries_readFrom in He.
  rewrite Forall_forall in He.
  destruct (He e Hin) as (pre & [m n h] & rest & -> & (Hm & Hn & Hh) & ->).
  cbn [rawMode rawName rawHash] in *. unfold encode, entryOf.
  cbn [rawMode rawName rawHash hash].
  set (content := pre ++ (m ++ x20 :: n ++ x00 :: h) ++ rest).
  set (front := pre ++ m ++ [x20] ++ n ++ [x00]).
  exists (Buffer.length front).
  assert (Hs : Buffer.slice content (Buffer.length front)
                 (Buffer.length front + 20) = h).
  { apply (slice_at content front h rest); auto.
    - subst content front. reassoc.
    - unfold Buffer.length. lia. }
  rewrite Hs. pose proof (length_nonneg front).
  repeat split; auto.
  - subst content front. len.
  - rewrite toHex_length. lia.
  - apply toHex_lower.
Qed.

(** The hash of the sample entry. *)
Lemma hash_is_forty_lowercase_hex_digits_witness :
  treeEntries (encode helloEntry) = Some [entryOf helloEntry]
  /\ In (entryOf helloEntry) [entryOf helloEntry]
  /\ exists offset,
       0 <= offset /\ offset + 20 <= Buffer.length (encode helloEntry)
       /\ List.length (Buffer.slice (encode helloEntry) offset (offset + 20))
          = 20%nat
       /\ hash (entryOf helloEntry)
          = toHex (Buffer.slice (encode helloEntry) offset (offset + 20))
       /\ List.length (hash (entryOf helloEntry)) = 40%nat
       /\ Forall (fun c => isLowerHexDigit c = true) (hash (entryOf helloEntry)).
Proof.
  split; [reflexivity | split; [left; reflexivity|]].
  exact (hash_is_forty_lowercase_hex_digits (encode helloEntry)
           [entryOf helloEntry] (entryOf helloEntry) eq_refl
           (or_introl eq_refl)).
Defined.



(** C10.  Every entry the loop pushes was read at the start of a
    well-formed entry of the payload: its mode is the text of the bytes
    before the first space byte from the cursor, its name the text of the
    bytes between that space and the first zero byte after it.  Hence the
    mode holds no space and the name no NUL character.  On the empty
    payload the loop pushes nothing and the text returned is empty. *)
Theorem fields_exclude_their_delimiters :
  (forall content entries e,
      treeEntries content = Some entries -> In e entries ->
      ~ In SPACE (mode e) /\ ~ In 0%N (name e)
      /\ exists pre r rest,
           content = pre ++ encode r ++ rest
           /\ ~ In x20 (rawMode r) /\ ~ In x00 (rawName r)
           /\ mode e = toString (rawMode r) /\ name e = toString (rawName r))
  /\ treeEntries [] = Some []
  /\ parseTreeObject [] = Some [].
Proof.
  split; [|split; reflexivity].
  intros content entries e He Hin. apply treeEntries_readFrom in He.
  rewrite Forall_forall in He.
  destruct (He e Hin) as (pre & r & rest & Hc & (Hm & Hn & Hh) & ->).
  cbn [entryOf mode name]. split; [|split].
  - now apply toString_no_space.
  - now apply toString_no_nul.
  - exists pre, r, rest. auto.
Qed.

(** The sample entry: no space in ["100644"], no NUL in ["hello.txt"]. *)
Lemma fields_exclude_their_delimiters_witness :
  treeEntries (encode helloEntry) = Some [entryOf helloEntry]
  /\ In (entryOf helloEntry) [entryOf helloEntry]
  /\ ~ In SPACE (mode (entryOf helloEntry))
  /\ ~ In 0%N (name (entryOf helloEntry)).
Proof.
  destruct fields_exclude_their_delimiters as (Hsep & _).
  destruct (Hsep (encode helloEntry) [entryOf helloEntry] (entryOf helloEntry)
              eq_refl (or_introl eq_refl)) as (Hm & Hn & _).
  split; [reflexivity | split; [left; reflexivity | split]].
  - exact Hm.
  - exact Hn.
Defined.

End Claims.

(** * Beyond the claims *)

(** ** Decoding at ASCII bytes *)

Module AsciiFacts.
Import DecodeFacts.
Local Open Scope N_scope.

Lemma utf8Decode_cons b r :
  utf8Decode (b :: r)
  = let x := b2n b in
    if x <=? 0x7F then x :: utf8Decode r
    else if inRange 0xC2 0xDF x then
      match r with
      | [] => [REPLACEMENT]
      | c1 :: r1 =>
        if inRange 0x80 0xBF (b2n c1)
        then addCont (N.land x 0x1F) (b2n c1) :: utf8Decode r1
        else REPLACEMENT :: utf8Decode r
      end
    else if inRange 0xE0 0xEF x then
      match r with
      | [] => [REPLACEMENT]
      | c1 :: r1 =>
        if inRange (lowerBoundary x) (upperBoundary x) (b2n c1) then
          match r1 with
          | [] => [REPLACEMENT]
          | c2 :: r2 =>
            if inRange 0x80 0xBF (b2n c2)
            then addCont (addCont (N.land x 0xF) (b2n c1)) (b2n c2)
                 :: utf8Decode r2
            else REPLACEMENT :: utf8Decode r1
          end
        else REPLACEMENT :: utf8Decode r
      end
    else if inRange 0xF0 0xF4 x then
      match r with
      | [] => [REPLACEMENT]
      | c1 :: r1 =>
        if inRange (lowerBoundary x) (upperBoundary x) (b2n c1) then
          match r1 with
          | [] => [REPLACEMENT]
          | c2 :: r2 =>
            if inRange 0x80 0xBF (b2n c2) then
              match r2 with
              | [] => [REPLACEMENT]
              | c3 :: r3 =>
                if inRange 0x80 0xBF (b2n c3)
                then addCont (addCont (addCont (N.land x 0x7) (b2n c1))
                                      (b2n c2)) (b2n c3)
                     :: utf8Decode r3
                else REPLACEMENT :: utf8Decode r2
              end
            else REPLACEMENT :: utf8Decode r1
          end
        else REPLACEMENT :: utf8Decode r
      end
    else REPLACEMENT :: utf8Decode r.
Proof. reflexivity. Qed.

Lemma lowerBoundary_ge lead : 0x80 <= lowerBoundary lead.
Proof.
  unfold lowerBoundary. destruct (lead =? 0xE0); [lia|].
  destruct (lead =? 0xF0); lia.
Qed.

(** An ASCII byte is never a continuation byte. *)
Lemma inRange_ascii lo hi x :
  x <= 0x7F -> 0x80 <= lo -> inRange lo hi x = false.
Proof.
  intros Hx Hlo. unfold inRange. apply andb_false_iff. left.
  apply N.leb_gt. lia.
Qed.

(** Decoding starts afresh at every ASCII byte. *)
Lemma utf8Decode_sync x rest (n : nat) : forall a,
  b2n x <= 0x7F -> (List.length a <= n)%nat ->
  utf8Decode (a ++ x :: rest) = utf8Decode a ++ utf8Decode (x :: rest).
Proof.
  induction n as [|n IH]; intros a Hx Hlen.
  { destruct a; [reflexivity | cbn in Hlen; lia]. }
  destruct a as [|b r]; [reflexivity|].
  cbn [List.length] in Hlen. cbn [app].
  rewrite (utf8Decode_cons b (r ++ x :: rest)), (utf8Decode_cons b r).
  cbv zeta.
  assert (Hc : forall lo hi, 0x80 <= lo -> inRange lo hi (b2n x) = false)
    by (intros; now apply inRange_ascii).
  pose proof (lowerBoundary_ge (b2n b)) as Hlb.
  repeat match goal with
         | |- context [match ?l ++ _ :: _ with [] => _ | _ :: _ => _ end] =>
           is_var l; destruct l; cbn [app List.length] in *;
           rewrite ?Hc by (assumption || lia)
         | |- context [if ?c then _ else _] => destruct c eqn:?
         end;
    first [ reflexivity
          | cbn [app]; f_equal;
            match goal with
            | |- utf8Decode _ = utf8Decode ?a ++ _ =>
              apply (IH a); [assumption | cbn [List.length]; lia]
            end ].
Qed.

Lemma toString_sync a x rest :
  b2n x <= 0x7F ->
  toString (a ++ x :: rest) = toString a ++ b2n x :: toString rest.
Proof.
  intros Hx. unfold toString.
  rewrite (utf8Decode_sync x rest (List.length a) a Hx (le_n _)).
  rewrite flat_map_app. f_equal. rewrite utf8Decode_cons. cbv zeta.
  replace (b2n x <=? 0x7F) with true by (symmetry; now apply N.leb_le).
  cbn [flat_map]. rewrite utf16_low by lia. reflexivity.
Qed.

(** ASCII bytes decode to themselves. *)
Lemma toString_ascii buf : isAscii buf -> toString buf = map b2n buf.
Proof.
  induction 1 as [|b buf Hb _ IH]; [reflexivity|].
  pose proof (toString_sync [] b buf Hb) as E.
  change (toString []) with (@nil N) in E. cbn [app] in E.
  rewrite E. cbn [map]. now rewrite IH.
Qed.

Lemma b2n_ofAscii s :
  Forall (fun c => c <= 0x7F) s -> map b2n (ofAscii s) = s.
Proof.
  induction 1 as [|c s Hc _ IH]; [reflexivity|].
  unfold ofAscii in *. cbn [map]. rewrite IH. f_equal.
  destruct (Byte.of_N c) as [b|] eqn:E.
  - now apply Byte.to_of_N.
  - apply Byte.of_N_None_iff in E. lia.
Qed.

Lemma isAscii_ofAscii s : Forall (fun c => c <= 0x7F) s -> isAscii (ofAscii s).
Proof.
  intros H. pose proof (b2n_ofAscii s H) as E. unfold isAscii.
  rewrite Forall_forall in *. intros b Hb.
  apply (in_map b2n) in Hb. rewrite E in Hb. auto.
Qed.

Lemma toString_ofAscii s :
  Forall (fun c => c <= 0x7F) s -> toString (ofAscii s) = s.
Proof.
  intros H. rewrite toString_ascii by now apply isAscii_ofAscii.
  now apply b2n_ofAscii.
Qed.

End AsciiFacts.

(** ** Splitting, joining and numbers in text *)

Module TextFacts.
Local Open Scope N_scope.

Lemma split_at_space u v :
  ~ In SPACE u -> split (u ++ SPACE :: v) = u :: split v.
Proof.
  induction u as [|c u IH]; intros H; cbn [app split].
  - now rewrite N.eqb_refl.
  - destruct (c =? SPACE) eqn:E.
    + apply N.eqb_eq in E. subst. exfalso. apply H. now left.
    + rewrite IH by (intros Hin; apply H; now right). reflexivity.
Qed.

(** The pieces of a split hold characters of the text, and no space. *)
Lemma split_pieces s : forall p,
  In p (split s) -> ~ In SPACE p /\ incl p s.
Proof.
  induction s as [|c s IH]; intros p Hin; cbn [split] in Hin.
  - destruct Hin as [<- | []]. split; [intros [] | intros x []].
  - destruct (c =? SPACE) eqn:E.
    + destruct Hin as [<- | Hin].
      * split; [intros [] | intros x []].
      * destruct (IH p Hin) as [H1 H2]. split; [assumption|].
        intros x Hx. right. now apply H2.
    + apply N.eqb_neq in E. destruct (split s) as [|piece pieces] eqn:Es.
      * destruct Hin as [<- | []]. split.
        -- intros [H | []]. congruence.
        -- intros x [<- | []]. now left.
      * destruct Hin as [<- | Hin].
        -- destruct (IH piece (or_introl eq_refl)) as [H1 H2]. split.
           ++ intros [H | H]; [congruence | contradiction].
           ++ intros x [<- | Hx]; [now left | right; now apply H2].
        -- destruct (IH p (or_intror Hin)) as [H1 H2]. split; [assumption|].
           intros x Hx. right. now apply H2.
Qed.

Lemma split_nonempty s : split s <> [].
Proof.
  destruct s as [|c s]; cbn [split]; [discriminate|].
  destruct (c =? SPACE); [discriminate|].
  destruct (split s); discriminate.
Qed.

Lemma splitOn_whole sep u : ~ In sep u -> splitOn sep u = [u].
Proof.
  induction u as [|c u IH]; intros H; cbn [splitOn]; [reflexivity|].
  destruct (c =? sep) eqn:E.
  - apply N.eqb_eq in E. subst. exfalso. apply H. now left.
  - rewrite IH by (intros Hin; apply H; now right). reflexivity.
Qed.

Lemma splitOn_at sep u v :
  ~ In sep u -> splitOn sep (u ++ sep :: v) = u :: splitOn sep v.
Proof.
  induction u as [|c u IH]; intros H; cbn [app splitOn].
  - now rewrite N.eqb_refl.
  - destruct (c =? sep) eqn:E.
    + apply N.eqb_eq in E. subst. exfalso. apply H. now left.
    + rewrite IH by (intros Hin; apply H; now right). reflexivity.
Qed.

(** Splitting a joined text gives the pieces back. *)
Lemma splitOn_join sep pieces :
  pieces <> [] -> Forall (fun p => ~ In sep p) pieces ->
  splitOn sep (join [sep] pieces) = pieces.
Proof.
  induction pieces as [|p pieces IH]; intros Hne Hall; [congruence|].
  inversion Hall as [|? ? Hp Hrest]; subst.
  destruct pieces as [|q pieces].
  - cbn [join]. now apply splitOn_whole.
  - change (join [sep] (p :: q :: pieces))
      with (p ++ sep :: join [sep] (q :: pieces)).
    rewrite splitOn_at by assumption. f_equal.
    apply IH; [discriminate | assumption].
Qed.

(** *** Decimal digits *)

Lemma uintChars_digits d : Forall (fun c => isDigit c = true) (uintChars d).
Proof. induction d; cbn [uintChars]; constructor; auto. Qed.

Lemma digits_all s : Forall (fun c => isDigit c = true) s -> digits s = s.
Proof.
  induction 1 as [|c s Hc _ IH]; [reflexivity|].
  cbn [digits]. now rewrite Hc, IH.
Qed.

Lemma isDigit_range c : isDigit c = true -> 0x30 <= c <= 0x39.
Proof.
  unfold isDigit, inRange. intros H. apply andb_prop in H as [H1 H2].
  apply N.leb_le in H1, H2. lia.
Qed.

Lemma digit_not_space c : isDigit c = true -> isWhiteSpace c = false.
Proof.
  intros H. apply isDigit_range in H. unfold isWhiteSpace, inRange.
  repeat (apply orb_false_intro);
    first [ apply N.eqb_neq; lia
          | apply andb_false_iff; right; apply N.leb_gt; lia
          | apply andb_false_iff; left; apply N.leb_gt; lia ].
Qed.

Lemma to_uint_nonnil n : Nat.to_uint n <> Decimal.Nil.
Proof.
  intros E. pose proof (DecimalNat.Unsigned.of_to n) as H.
  rewrite E in H. cbn in H. subst n. discriminate.
Qed.

Lemma decimal_digits n : Forall (fun c => isDigit c = true) (decimal n).
Proof. apply uintChars_digits. Qed.

Lemma decimal_nonempty n : decimal n <> [].
Proof.
  unfold decimal. pose proof (to_uint_nonnil n).
  destruct (Nat.to_uint n); cbn [uintChars]; congruence.
Qed.

Lemma fold_uintChars d : forall acc,
  fold_left (fun acc c => (10 * acc + Z.of_N (c - 0x30))%Z) (uintChars d)
            (Z.of_nat acc)
  = Z.of_nat (Nat.of_uint_acc d acc).
Proof.
  induction d; intros acc; cbn [uintChars fold_left Nat.of_uint_acc];
    [reflexivity | ..];
    rewrite <- IHd; f_equal; rewrite Nat.tail_mul_spec;
    change (Z.of_N (0x30 - 0x30)) with 0%Z;
    change (Z.of_N (0x31 - 0x30)) with 1%Z;
    change (Z.of_N (0x32 - 0x30)) with 2%Z;
    change (Z.of_N (0x33 - 0x30)) with 3%Z;
    change (Z.of_N (0x34 - 0x30)) with 4%Z;
    change (Z.of_N (0x35 - 0x30)) with 5%Z;
    change (Z.of_N (0x36 - 0x30)) with 6%Z;
    change (Z.of_N (0x37 - 0x30)) with 7%Z;
    change (Z.of_N (0x38 - 0x30)) with 8%Z;
    change (Z.of_N (0x39 - 0x30)) with 9%Z; lia.
Qed.

Lemma mathInt_decimal n : mathInt (decimal n) = Z.of_nat n.
Proof.
  unfold mathInt, decimal. change 0%Z with (Z.of_nat 0).
  rewrite fold_uintChars. f_equal. apply DecimalNat.Unsigned.of_to.
Qed.

(** Reading back the digits of a length gives the length. *)
Lemma parseInt_decimal n : parseInt (Some (decimal n)) = Num (Z.of_nat n).
Proof.
  pose proof (decimal_digits n) as Hd. pose proof (decimal_nonempty n) as Hne.
  pose proof (mathInt_decimal n) as Hm.
  unfold parseInt, ToString. destruct (decimal n) as [|c s]; [congruence|].
  inversion Hd as [|? ? Hc Hs]; subst.
  cbn [trimStart]. rewrite (digit_not_space c Hc).
  pose proof (isDigit_range c Hc) as Hr.
  replace (c =? 0x2D) with false by (symmetry; apply N.eqb_neq; lia).
  replace (c =? 0x2B) with false by (symmetry; apply N.eqb_neq; lia).
  cbn [orb]. rewrite (digits_all (c :: s) Hd). rewrite Hm. f_equal. lia.
Qed.

Lemma decimal_ascii n : Forall (fun c => c <= 0x7F) (decimal n).
Proof.
  eapply Forall_impl; [|apply decimal_digits].
  intros c Hc. apply isDigit_range in Hc. lia.
Qed.

Lemma decimal_no c n : (c < 0x30 \/ 0x39 < c) -> ~ In c (decimal n).
Proof.
  intros Hc Hin. pose proof (decimal_digits n) as Hd.
  rewrite Forall_forall in Hd. apply Hd, isDigit_range in Hin. lia.
Qed.

End TextFacts.

(** ** Lines of the listing *)

Module LineFacts.
Import DecodeFacts StringFacts TextFacts.
Local Open Scope N_scope.

Definition typeStrings : list jsstring :=
  [lit "tree"; lit "blob"; lit "blob (executable)"; lit "symlink";
   lit "commit (submodule)"; lit "unknown"].

Lemma typeStrOf_cases m : In (typeStrOf m) typeStrings.
Proof.
  unfold typeStrOf, typeStrings.
  repeat match goal with
         | |- context [if ?c then _ else _] => destruct c
         end; cbn [In]; tauto.
Qed.

Lemma typeStrOf_short m : (List.length (typeStrOf m) <= 20)%nat.
Proof.
  pose proof (typeStrOf_cases m) as H. unfold typeStrings in H.
  cbn [In] in H.
  repeat (destruct H as [<- | H]; [cbn; lia|]). destruct H.
Qed.

Lemma typeStrOf_no_LF m : ~ In LF (typeStrOf m).
Proof.
  pose proof (typeStrOf_cases m) as H. unfold typeStrings in H.
  cbn [In] in H.
  repeat (destruct H as [<- | H];
          [intros Hin; cbn in Hin;
           repeat (destruct Hin as [Hin | Hin]; [discriminate|]);
           exact Hin|]).
  destruct H.
Qed.

Lemma padEnd_length s n :
  (List.length s <= n)%nat -> List.length (padEnd s n) = n.
Proof.
  intros H. unfold padEnd. rewrite List.length_app, repeat_length. lia.
Qed.

Lemma padEnd_no_LF s n : ~ In LF s -> ~ In LF (padEnd s n).
Proof.
  intros H Hin. unfold padEnd in Hin. apply in_app_or in Hin as [Hin | Hin].
  - contradiction.
  - apply repeat_spec in Hin. discriminate.
Qed.

Lemma toString_no_LF buf : ~ In x0a buf -> ~ In LF (toString buf).
Proof.
  intros H Hin. apply toString_low in Hin as (b & Hb & He).
  - change LF with (b2n x0a) in He. apply b2n_inj in He. now subst.
  - unfold LF. lia.
Qed.

Lemma toHex_no_LF buf : ~ In LF (toHex buf).
Proof.
  intros Hin. pose proof (toHex_lower buf) as H.
  rewrite Forall_forall in H. apply H in Hin. discriminate.
Qed.

Lemma notin_app (x : N) a b : ~ In x a -> ~ In x b -> ~ In x (a ++ b).
Proof. intros Ha Hb Hin. apply in_app_or in Hin. tauto. Qed.

Lemma lit_no_LF_1 : ~ In LF (lit " ").
Proof. cbn. intros [H | []]. discriminate. Qed.

Lemma lit_no_LF_4 : ~ In LF (lit "    ").
Proof.
  cbn. intros H. repeat (destruct H as [H | H]; [discriminate|]). exact H.
Qed.

(** The line of an entry without newline byte holds no newline. *)
Lemma entryLine_no_LF r :
  ~ In x0a (rawMode r) -> ~ In x0a (rawName r) ->
  ~ In LF (entryLine (entryOf r)).
Proof.
  intros Hm Hn. unfold entryLine, entryOf. cbn [mode typeStr hash name].
  apply notin_app; [now apply padEnd_no_LF, toString_no_LF|].
  apply notin_app; [apply lit_no_LF_1|].
  apply notin_app; [apply padEnd_no_LF, typeStrOf_no_LF|].
  apply notin_app; [apply lit_no_LF_1|].
  apply notin_app; [apply toHex_no_LF|].
  apply notin_app; [apply lit_no_LF_4|].
  now apply toString_no_LF.
Qed.

Lemma firstn_exact {A} (l1 l2 : list A) n :
  List.length l1 = n -> firstn n (l1 ++ l2) = l1.
Proof.
  intros <-. rewrite firstn_app, Nat.sub_diag, firstn_all. apply app_nil_r.
Qed.

Lemma skipn_exact {A} (l1 l2 : list A) n :
  List.length l1 = n -> skipn n (l1 ++ l2) = l2.
Proof. intros <-. now rewrite skipn_app, Nat.sub_diag, skipn_all. Qed.

(** *** Hexadecimal text determines the bytes *)

Lemma below_16 n : n < 16 -> In n (map N.of_nat (seq 0 16)).
Proof. intros H. rewrite <- (N2Nat.id n). apply in_map, in_seq. lia. Qed.

Lemma hexDigit_inj m n : m < 16 -> n < 16 -> hexDigit m = hexDigit n -> m = n.
Proof.
  intros Hm Hn. apply below_16 in Hm, Hn. cbn in Hm, Hn.
  repeat (destruct Hm as [<- | Hm]; [|]);
    try (destruct Hm);
    repeat (destruct Hn as [<- | Hn]; [|]);
    try (destruct Hn);
    intros H; first [reflexivity | discriminate H].
Qed.

Lemma toHex_inj a : forall b, toHex a = toHex b -> a = b.
Proof.
  induction a as [|x a IH]; intros [|y b] H; try reflexivity;
    try discriminate H.
  unfold toHex in H. cbn [flat_map app] in H.
  injection H as Hhi Hlo Hrest.
  pose proof (b2n_lt x) as Hx. pose proof (b2n_lt y) as Hy.
  apply hexDigit_inj in Hhi;
    [| apply N.Div0.div_lt_upper_bound; lia
     | apply N.Div0.div_lt_upper_bound; lia].
  apply hexDigit_inj in Hlo; [| apply N.mod_lt; lia | apply N.mod_lt; lia].
  f_equal.
  - apply b2n_inj.
    rewrite (N.div_mod (b2n x) 16), (N.div_mod (b2n y) 16) by lia.
    now rewrite Hhi, Hlo.
  - now apply IH.
Qed.

End LineFacts.

(** ** Streams in the loose format *)

Module LooseFacts.
Import DecodeFacts DecoderFacts AsciiFacts TextFacts.

Lemma ofAscii_decimal_no_zero n : ~ In x00 (ofAscii (decimal n)).
Proof.
  intros Hin. apply (in_map b2n) in Hin.
  rewrite b2n_ofAscii in Hin by apply decimal_ascii.
  revert Hin. apply decimal_no. left. reflexivity.
Qed.

(** The header of a loose object, possibly with more tokens behind the
    size: the first token is the type and the second reads as the size. *)
Lemma loose_header typeBytes n tail :
  ~ In x20 typeBytes ->
  tail = [] \/ (exists junk, tail = x20 :: junk) ->
  typeToken (toString (typeBytes ++ x20 :: ofAscii (decimal n) ++ tail))
  = toString typeBytes
  /\ parseInt (sizeToken
                 (toString (typeBytes ++ x20 :: ofAscii (decimal n) ++ tail)))
     = Num (Z.of_nat n).
Proof.
  intros Hs Htail.
  assert (Hx : (b2n x20 <= 0x7F)%N) by (vm_compute; discriminate).
  assert (Hd : toString (ofAscii (decimal n)) = decimal n)
    by (apply toString_ofAscii, decimal_ascii).
  assert (Hnd : ~ In SPACE (decimal n))
    by (apply decimal_no; left; reflexivity).
  unfold typeToken, sizeToken. rewrite toString_sync by assumption.
  change (b2n x20) with SPACE.
  rewrite split_at_space by now apply toString_no_space.
  destruct Htail as [-> | (junk & ->)].
  - rewrite app_nil_r, Hd, split_no_space by assumption.
    cbn [hd nth_error]. split; [reflexivity | apply parseInt_decimal].
  - rewrite toString_sync, Hd by assumption.
    change (b2n x20) with SPACE. rewrite split_at_space by assumption.
    cbn [hd nth_error]. split; [reflexivity | apply parseInt_decimal].
Qed.

Lemma inflateCallback_loose typeBytes payload tail :
  ~ In x20 typeBytes -> ~ In x00 typeBytes -> ~ In x00 tail ->
  tail = [] \/ (exists junk, tail = x20 :: junk) ->
  inflateCallback
    (inr (typeBytes ++ x20 :: ofAscii (decimal (List.length payload))
          ++ tail ++ x00 :: payload))
  = Resolved {| type := toString typeBytes;
                size := Num (Buffer.length payload);
                content := payload |}.
Proof.
  intros Hs Hz Hzt Htail.
  set (n := List.length payload).
  set (hdr := typeBytes ++ x20 :: ofAscii (decimal n) ++ tail).
  replace (typeBytes ++ x20 :: ofAscii (decimal n) ++ tail ++ x00 :: payload)
    with (hdr ++ x00 :: payload).
  2:{ subst hdr. rewrite <- app_assoc. cbn [app]. now rewrite <- app_assoc. }
  assert (Hz' : ~ In x00 hdr).
  { subst hdr. intros Hin. apply in_app_or in Hin as [Hin | [Hin | Hin]];
      [contradiction | discriminate |].
    apply in_app_or in Hin as [Hin | Hin]; [|contradiction].
    revert Hin. apply ofAscii_decimal_no_zero. }
  destruct (loose_header typeBytes n tail Hs Htail) as [Hty Hsz].
  rewrite inflateCallback_layout by assumption.
  rewrite checked_accepted by exact Hsz. subst hdr. now rewrite Hty.
Qed.

(** A run of well-formed entries takes at least 22 bytes an entry. *)
Lemma length_encodeAll_wellFormed rs :
  Forall wellFormed rs ->
  (22 * List.length rs <= List.length (encodeAll rs))%nat.
Proof.
  induction 1 as [|r rs (_ & _ & Hh) _ IH]; [cbn; lia|].
  cbn [encodeAll flat_map List.length]. fold (encodeAll rs).
  unfold encode. rewrite !List.length_app. cbn [List.length].
  rewrite !List.length_app. cbn [List.length]. lia.
Qed.

End LooseFacts.

(** ** The decoder and the listing *)

Module Extras.
Import BufferFacts LoopFacts WhileFacts DecodeFacts DecoderFacts EntryFacts.
Import StringFacts AsciiFacts TextFacts LineFacts LooseFacts.

(** X1.  Every object in the loose format of Git is decoded: for a type
    without space and zero byte and any payload, the stream made of the
    type, a space, the payload length in decimal digits, a zero byte and
    the payload resolves to that type, that length and that payload. *)
Theorem loose_object_is_decoded readFile inflate objectPath compressed
    typeBytes payload :
  readFile objectPath = inr compressed ->
  inflate compressed = inr (looseObject typeBytes payload) ->
  ~ In x20 typeBytes -> ~ In x00 typeBytes ->
  parseGitObject readFile inflate objectPath
  = Resolved {| type := toString typeBytes;
                size := Num (Buffer.length payload);
                content := payload |}.
Proof.
  intros Hread Hinf Hs Hz. unfold parseGitObject, readFileCallback.
  rewrite Hread, Hinf. unfold looseObject.
  apply (inflateCallback_loose typeBytes payload []); auto.
Qed.

(** A blob of five bytes, stored uncompressed. *)
Lemma loose_object_is_decoded_witness :
  parseGitObject (fun _ => inr (looseObject (ascii_bytes "blob") hello))
                 (fun c => inr c) "ab/cd"
  = Resolved {| type := lit "blob"; size := Num 5; content := hello |}.
Proof.
  exact (loose_object_is_decoded
           (fun _ => inr (looseObject (ascii_bytes "blob") hello))
           (fun c => inr c) "ab/cd"%string
           (looseObject (ascii_bytes "blob") hello)
           (ascii_bytes "blob") hello eq_refl eq_refl
           (absent x20 (ascii_bytes "blob") eq_refl)
           (absent x00 (ascii_bytes "blob") eq_refl)).
Defined.

(** X2.  A resolved object accounts for the whole decompressed stream:
    the stream is a header without zero byte, one zero byte and the
    content of the object, and the type of the object, the first token of
    that header, holds neither a space nor a NUL character. *)
Theorem resolved_object_splits_the_stream d o :
  inflateCallback (inr d) = Resolved o ->
  exists hdr,
    d = hdr ++ x00 :: content o /\ ~ In x00 hdr
    /\ type o = typeToken (toString hdr)
    /\ ~ In SPACE (type o) /\ ~ In 0%N (type o).
Proof.
  intros H. destruct (in_dec Byte.byte_eq_dec x00 d) as [Hin | Hn].
  2:{ rewrite inflateCallback_no_zero in H by assumption. discriminate. }
  destruct (layout d Hin) as (hdr & payload & -> & Hh).
  rewrite inflateCallback_layout in H by assumption.
  apply checked_resolved in H as [-> _]. cbn [content type].
  exists hdr. repeat split; try assumption.
  - unfold typeToken. pose proof (split_nonempty (toString hdr)) as Hne.
    destruct (split (toString hdr)) as [|p ps] eqn:E; [congruence|].
    cbn [hd]. apply (split_pieces (toString hdr) p). rewrite E. now left.
  - unfold typeToken. pose proof (split_nonempty (toString hdr)) as Hne.
    destruct (split (toString hdr)) as [|p ps] eqn:E; [congruence|].
    cbn [hd]. intros H0.
    destruct (split_pieces (toString hdr) p) as [_ Hincl];
      [rewrite E; now left|].
    apply Hincl in H0. revert H0. now apply toString_no_nul.
Qed.

(** The stream ["blob 5\0hello"]. *)
Lemma resolved_object_splits_the_stream_witness :
  inflateCallback (inr blob5hello)
  = Resolved {| type := lit "blob"; size := Num 5; content := hello |}
  /\ exists hdr,
       blob5hello = hdr ++ x00 :: hello /\ ~ In x00 hdr
       /\ lit "blob" = typeToken (toString hdr)
       /\ ~ In SPACE (lit "blob") /\ ~ In 0%N (lit "blob").
Proof.
  split; [reflexivity|].
  exact (resolved_object_splits_the_stream blob5hello
           {| type := lit "blob"; size := Num 5; content := hello |} eq_refl).
Defined.

(** X3.  What follows complete entries does not change them: after a run
    of well-formed entries the loop reads the rest of the payload as if
    it stood alone, and the array is the entries of the run followed by
    the entries of the rest. *)
Theorem entries_of_a_prefix_are_kept rs rest :
  Forall wellFormed rs ->
  exists entries,
    treeEntries rest = Some entries
    /\ treeEntries (encodeAll rs ++ rest) = Some (map entryOf rs ++ entries).
Proof.
  intros Hwf.
  destruct (payload_shape (List.length rest) rest (le_n _))
    as (rs' & t & -> & Hwf' & Ht).
  exists (map entryOf rs'). split; [now apply treeEntries_encodeAll|].
  rewrite app_assoc. unfold encodeAll. rewrite <- flat_map_app, <- map_app.
  apply treeEntries_encodeAll; [|assumption].
  apply Forall_app. now split.
Qed.

(** The sample entry followed by an entry and five stray bytes. *)
Lemma entries_of_a_prefix_are_kept_witness :
  Forall wellFormed [helloEntry]
  /\ exists entries,
       treeEntries (encode oddModeEntry ++ ascii_bytes "12 45") = Some entries
       /\ treeEntries (encodeAll [helloEntry]
                       ++ encode oddModeEntry ++ ascii_bytes "12 45")
          = Some (map entryOf [helloEntry] ++ entries).
Proof.
  assert (Hwf : Forall wellFormed [helloEntry])
    by (constructor; [apply helloEntry_wellFormed | constructor]).
  split; [exact Hwf|].
  exact (entries_of_a_prefix_are_kept [helloEntry]
           (encode oddModeEntry ++ ascii_bytes "12 45") Hwf).
Defined.

(** X4.  The listing is aligned in columns: for an entry whose mode has
    at most 6 characters, the first 28 characters of its line are the
    mode padded to 6, a space, the type string padded to 20 and a space,
    the next 40 are the hash, and the name starts at column 72. *)
Theorem listing_columns content entries e :
  treeEntries content = Some entries -> In e entries ->
  (List.length (mode e) <= 6)%nat ->
  firstn 28 (entryLine e)
  = padEnd (mode e) 6 ++ [SPACE] ++ padEnd (typeStr e) 20 ++ [SPACE]
  /\ firstn 40 (skipn 28 (entryLine e)) = hash e
  /\ skipn 72 (entryLine e) = name e.
Proof.
  intros He Hin Hmode. apply treeEntries_readFrom in He.
  rewrite Forall_forall in He.
  destruct (He e Hin) as (pre & r & rest & _ & (_ & _ & Hh) & ->).
  unfold entryLine. cbn [entryOf mode typeStr hash name] in *.
  set (m := padEnd (toString (rawMode r)) 6).
  set (ty := padEnd (typeStrOf (toString (rawMode r))) 20).
  assert (Hm : List.length m = 6%nat) by now apply padEnd_length.
  assert (Hty : List.length ty = 20%nat)
    by apply padEnd_length, typeStrOf_short.
  assert (Hhash : List.length (toHex (rawHash r)) = 40%nat)
    by (rewrite toHex_length; lia).
  set (front := m ++ [SPACE] ++ ty ++ [SPACE]).
  assert (Hf : List.length front = 28%nat).
  { subst front. rewrite !List.length_app. cbn [List.length]. lia. }
  replace (m ++ lit " " ++ ty ++ lit " " ++ toHex (rawHash r)
           ++ lit "    " ++ toString (rawName r))
    with (front ++ toHex (rawHash r) ++ lit "    " ++ toString (rawName r))
    by (subst front; cbn [lit]; repeat rewrite <- app_assoc; reflexivity).
  split; [|split].
  - now apply firstn_exact.
  - rewrite (skipn_exact front _ 28 Hf). now apply firstn_exact.
  - replace 72%nat with (4 + 40 + 28)%nat by reflexivity.
    rewrite <- !skipn_skipn. rewrite (skipn_exact front _ 28 Hf).
    rewrite (skipn_exact (toHex (rawHash r)) _ 40 Hhash). reflexivity.
Qed.

(** The line of the sample entry. *)
Lemma listing_columns_witness :
  treeEntries (encode helloEntry) = Some [entryOf helloEntry]
  /\ In (entryOf helloEntry) [entryOf helloEntry]
  /\ (List.length (mode (entryOf helloEntry)) <= 6)%nat
  /\ firstn 28 (entryLine (entryOf helloEntry))
     = lit "100644 blob                 "
  /\ firstn 40 (skipn 28 (entryLine (entryOf helloEntry)))
     = lit "000102030405060708090a0b0c0d0e0f10111213"
  /\ skipn 72 (entryLine (entryOf helloEntry)) = lit "hello.txt".
Proof.
  assert (Hl : (List.length (mode (entryOf helloEntry)) <= 6)%nat)
    by (vm_compute; lia).
  split; [reflexivity | split; [left; reflexivity | split; [exact Hl|]]].
  exact (listing_columns (encode helloEntry) [entryOf helloEntry]
           (entryOf helloEntry) eq_refl (or_introl eq_refl) Hl).
Defined.

Lemma parseTreeObject_lines content entries :
  treeEntries content = Some entries ->
  parseTreeObject content = Some (join [LF] (map entryLine entries)).
Proof.
  intros He. unfold parseTreeObject, treeEntries in *.
  change (@nil jsstring) with (map entryLine []).
  rewrite whileLoop_lines, He. reflexivity.
Qed.

(** X5.  The text of a listing has one line per entry: when no mode and
    no name of a non-empty run of well-formed entries holds a newline
    byte, splitting the returned text at the newlines gives back the
    lines of the entries, in order. *)
Theorem listing_has_one_line_per_entry rs t :
  Forall wellFormed rs -> Truncated t -> rs <> [] ->
  Forall (fun r => ~ In x0a (rawMode r) /\ ~ In x0a (rawName r)) rs ->
  exists text,
    parseTreeObject (encodeAll rs ++ t) = Some text
    /\ splitOn LF text = map entryLine (map entryOf rs).
Proof.
  intros Hwf Ht Hne Hlf.
  exists (join [LF] (map entryLine (map entryOf rs))). split.
  - apply parseTreeObject_lines. now apply treeEntries_encodeAll.
  - apply splitOn_join.
    + destruct rs; [congruence | discriminate].
    + rewrite map_map. apply Forall_map.
      eapply Forall_impl; [|exact Hlf].
      intros r [Hm Hn]. now apply entryLine_no_LF.
Qed.

(** Two entries and stray bytes: two lines. *)
Lemma listing_has_one_line_per_entry_witness :
  Forall wellFormed [helloEntry; oddModeEntry]
  /\ Truncated (ascii_bytes "12 45")
  /\ [helloEntry; oddModeEntry] <> []
  /\ exists text,
       parseTreeObject (encodeAll [helloEntry; oddModeEntry]
                        ++ ascii_bytes "12 45") = Some text
       /\ splitOn LF text
          = [entryLine (entryOf helloEntry); entryLine (entryOf oddModeEntry)].
Proof.
  assert (Hwf : Forall wellFormed [helloEntry; oddModeEntry]).
  { constructor; [apply helloEntry_wellFormed|].
    constructor; [apply oddModeEntry_wellFormed | constructor]. }
  assert (Ht : Truncated (ascii_bytes "12 45"))
    by (apply short_truncated; cbn; lia).
  assert (Hne : [helloEntry; oddModeEntry] <> []) by discriminate.
  assert (Hlf : Forall (fun r => ~ In x0a (rawMode r) /\ ~ In x0a (rawName r))
                       [helloEntry; oddModeEntry]).
  { repeat constructor; apply absent; reflexivity. }
  split; [exact Hwf | split; [exact Ht | split; [exact Hne|]]].
  exact (listing_has_one_line_per_entry [helloEntry; oddModeEntry]
           (ascii_bytes "12 45") Hwf Ht Hne Hlf).
Defined.

(** X6.  The hexadecimal text of a hash determines its bytes: two entries
    show the same hash text exactly when their hash bytes are the same. *)
Theorem hash_text_determines_hash_bytes r1 r2 :
  hash (entryOf r1) = hash (entryOf r2) <-> rawHash r1 = rawHash r2.
Proof.
  cbn [entryOf hash]. split.
  - apply toHex_inj.
  - now intros ->.
Qed.

(** Two entries that share the bytes 0..19 as hash. *)
Lemma hash_text_determines_hash_bytes_witness :
  hash (entryOf helloEntry) = hash (entryOf oddModeEntry)
  /\ rawHash helloEntry = rawHash oddModeEntry.
Proof.
  split; [|reflexivity].
  exact (proj2 (hash_text_determines_hash_bytes helloEntry oddModeEntry)
               eq_refl).
Defined.

(** X7.  Modes and names of ASCII bytes are shown byte for byte: on a run
    of well-formed entries whose modes and names are ASCII the loop
    pushes, for each entry, its mode and its name unchanged, each
    character being the byte. *)
Theorem ascii_fields_are_shown_verbatim rs t :
  Forall wellFormed rs -> Truncated t ->
  Forall (fun r => isAscii (rawMode r) /\ isAscii (rawName r)) rs ->
  treeEntries (encodeAll rs ++ t)
  = Some (map (fun r => {| mode := map b2n (rawMode r);
                           typeStr := typeStrOf (map b2n (rawMode r));
                           hash := toHex (rawHash r);
                           name := map b2n (rawName r) |}) rs).
Proof.
  intros Hwf Ht Ha. rewrite treeEntries_encodeAll by assumption.
  f_equal. apply map_ext_in. intros r Hr.
  rewrite Forall_forall in Ha. destruct (Ha r Hr) as [Hm Hn].
  unfold entryOf. now rewrite !toString_ascii by assumption.
Qed.

(** The sample entry. *)
Lemma ascii_fields_are_shown_verbatim_witness :
  Forall wellFormed [helloEntry] /\ Truncated []
  /\ Forall (fun r => isAscii (rawMode r) /\ isAscii (rawName r)) [helloEntry]
  /\ treeEntries (encodeAll [helloEntry] ++ [])
     = Some [ {| mode := lit "100644"; typeStr := lit "blob";
                 hash := lit "000102030405060708090a0b0c0d0e0f10111213";
                 name := lit "hello.txt" |} ].
Proof.
  assert (Hwf : Forall wellFormed [helloEntry])
    by (constructor; [apply helloEntry_wellFormed | constructor]).
  assert (Ht : Truncated []) by (apply no_space; intros []).
  assert (Ha : Forall (fun r => isAscii (rawMode r) /\ isAscii (rawName r))
                      [helloEntry]).
  { constructor; [|constructor].
    split; unfold isAscii; repeat constructor; vm_compute; discriminate. }
  split; [exact Hwf | split; [exact Ht | split; [exact Ha|]]].
  exact (ascii_fields_are_shown_verbatim [helloEntry] [] Hwf Ht Ha).
Defined.

End Extras.

(** ** Paths, hashes and tree items *)

Module ProviderFacts.
Import DecoderFacts TextFacts.
Import GitObjectContentProvider.

Lemma findIndexFrom_absent {A} (p : A -> bool) l : forall i,
  Forall (fun x => p x = false) l -> findIndexFrom p l i = -1.
Proof.
  induction l as [|x l IH]; intros i H; cbn [findIndexFrom]; [reflexivity|].
  inversion H as [|? ? Hx Hl]; subst. rewrite Hx. now apply IH.
Qed.

Lemma findIndexFrom_first {A} (p : A -> bool) pre x post : forall i,
  Forall (fun y => p y = false) pre -> p x = true ->
  findIndexFrom p (pre ++ x :: post) i = i + Z.of_nat (List.length pre).
Proof.
  induction pre as [|y pre IH]; intros i H Hx; cbn [app findIndexFrom].
  - rewrite Hx. cbn. lia.
  - inversion H as [|? ? Hy Hpre]; subst. rewrite Hy.
    rewrite IH by assumption. cbn [List.length]. lia.
Qed.

Lemma not_objects parts :
  ~ In (lit "objects") parts ->
  Forall (fun p => jsstring_eqb p (lit "objects") = false) parts.
Proof.
  intros H. apply Forall_forall. intros p Hp.
  apply StringFacts.jsstring_eqb_neq. intros ->. contradiction.
Qed.

Lemma at_app parts x post :
  at_ (parts ++ x :: post) (Z.of_nat (List.length parts)) = x.
Proof. unfold at_. rewrite Nat2Z.id. apply nth_middle. Qed.

(** The two components after the first ["objects"] make the hash. *)
Lemma hashOfObjectPath_found h objectPath pre dir file post :
  splitOn (path_sep h) objectPath = pre ++ lit "objects" :: dir :: file :: post ->
  ~ In (lit "objects") pre ->
  hashOfObjectPath h objectPath = dir ++ file.
Proof.
  intros Hs Hpre. unfold hashOfObjectPath, findIndex. rewrite Hs.
  rewrite findIndexFrom_first by (auto using not_objects).
  replace (0 + Z.of_nat (List.length pre) >=? 0) with true
    by (symmetry; apply Z.geb_le; lia).
  replace (Z.of_nat (List.length (pre ++ lit "objects" :: dir :: file :: post))
           >? 0 + Z.of_nat (List.length pre) + 2) with true.
  2:{ symmetry. rewrite Z.gtb_ltb. apply Z.ltb_lt.
      rewrite List.length_app. cbn [List.length]. lia. }
  cbn [andb]. f_equal.
  - replace (pre ++ lit "objects" :: dir :: file :: post)
      with ((pre ++ [lit "objects"]) ++ dir :: file :: post)
      by (now rewrite <- app_assoc).
    replace (0 + Z.of_nat (List.length pre) + 1)
      with (Z.of_nat (List.length (pre ++ [lit "objects"])))
      by (rewrite List.length_app; cbn [List.length]; lia).
    apply at_app.
  - replace (pre ++ lit "objects" :: dir :: file :: post)
      with ((pre ++ [lit "objects"; dir]) ++ file :: post)
      by (now rewrite <- app_assoc).
    replace (0 + Z.of_nat (List.length pre) + 2)
      with (Z.of_nat (List.length (pre ++ [lit "objects"; dir])))
      by (rewrite List.length_app; cbn [List.length]; lia).
    apply at_app.
Qed.

Lemma hashOfObjectPath_absent h objectPath :
  ~ In (lit "objects") (splitOn (path_sep h) objectPath) ->
  hashOfObjectPath h objectPath = lit "unknown".
Proof.
  intros H. unfold hashOfObjectPath, findIndex.
  rewrite findIndexFrom_absent by now apply not_objects. reflexivity.
Qed.

Lemma hashOfObjectPath_short h objectPath pre tail :
  splitOn (path_sep h) objectPath = pre ++ lit "objects" :: tail ->
  ~ In (lit "objects") pre -> (List.length tail < 2)%nat ->
  hashOfObjectPath h objectPath = lit "unknown".
Proof.
  intros Hs Hpre Ht. unfold hashOfObjectPath, findIndex. rewrite Hs.
  rewrite findIndexFrom_first by (auto using not_objects).
  replace (Z.of_nat (List.length (pre ++ lit "objects" :: tail))
           >? 0 + Z.of_nat (List.length pre) + 2) with false.
  2:{ symmetry. rewrite Z.gtb_ltb. apply Z.ltb_ge.
      rewrite List.length_app. cbn [List.length]. lia. }
  now rewrite andb_false_r.
Qed.

(** The size of a resolved object is written as the number of bytes. *)
Lemma numberToString_length content :
  numberToString (Num (Buffer.length content)) = decimal (List.length content).
Proof.
  unfold numberToString, Buffer.length.
  replace (Z.of_nat (List.length content) <? 0) with false
    by (symmetry; apply Z.ltb_ge; lia).
  now rewrite Nat2Z.id.
Qed.

Lemma parseGitObjectAt_resolved h objectPath o :
  parseGitObjectAt h objectPath = Resolved o ->
  size o = Num (Buffer.length (content o)).
Proof.
  unfold parseGitObjectAt, readFileCallback.
  destruct (fs_readFile h objectPath) as [err | c]; [discriminate|].
  apply inflateCallback_resolved.
Qed.

End ProviderFacts.

(** ** The content provider and the tree view *)

Module ProviderExtras.
Import DecoderFacts StringFacts TextFacts ProviderFacts.
Import GitObjectContentProvider.

(** X8.  Opened from its file, an object gets as hash the two path
    components that follow the first component ["objects"], joined; a
    path without such a component, or with fewer than two components
    after it, gets the hash ["unknown"]. *)
Theorem hash_of_an_object_path h :
  (forall pre dir file post,
      Forall (fun p => ~ In (path_sep h) p)
             (pre ++ lit "objects" :: dir :: file :: post) ->
      ~ In (lit "objects") pre ->
      hashOfObjectPath h
        (join [path_sep h] (pre ++ lit "objects" :: dir :: file :: post))
      = dir ++ file)
  /\ (forall parts,
         parts <> [] -> Forall (fun p => ~ In (path_sep h) p) parts ->
         ~ In (lit "objects") parts ->
         hashOfObjectPath h (join [path_sep h] parts) = lit "unknown")
  /\ (forall pre tail,
         Forall (fun p => ~ In (path_sep h) p) (pre ++ lit "objects" :: tail) ->
         ~ In (lit "objects") pre -> (List.length tail < 2)%nat ->
         hashOfObjectPath h (join [path_sep h] (pre ++ lit "objects" :: tail))
         = lit "unknown").
Proof.
  split; [|split].
  - intros pre dir file post Hsep Hpre.
    apply hashOfObjectPath_found with (pre := pre) (post := post);
      [|assumption].
    apply splitOn_join; [|assumption]. destruct pre; discriminate.
  - intros parts Hne Hsep Hno. apply hashOfObjectPath_absent.
    now rewrite splitOn_join.
  - intros pre tail Hsep Hpre Ht.
    apply hashOfObjectPath_short with (pre := pre) (tail := tail);
      [|assumption..].
    apply splitOn_join; [|assumption]. destruct pre; discriminate.
Qed.

(** The path [/repo/.git/objects/ab/cdef], and a path that stops at the
    directory [ab]. *)
Lemma hash_of_an_object_path_witness :
  hashOfObjectPath sampleHost (lit "/repo/.git/objects/ab/cdef") = lit "abcdef"
  /\ hashOfObjectPath sampleHost (lit "/repo/.git/objects/ab") = lit "unknown"
  /\ hashOfObjectPath sampleHost (lit "/repo/README.md") = lit "unknown".
Proof.
  destruct (hash_of_an_object_path sampleHost) as (Hfound & Habsent & Hshort).
  assert (nosep : forall parts,
             forallb (fun p => negb (existsb (N.eqb SLASH) p)) parts = true ->
             Forall (fun p => ~ In (path_sep sampleHost) p) parts).
  { intros parts H. apply Forall_forall. intros p Hp Hin.
    rewrite forallb_forall in H. specialize (H p Hp).
    apply negb_true_iff, not_true_iff_false in H. apply H.
    apply existsb_exists. exists SLASH. split; [assumption|].
    apply N.eqb_refl. }
  assert (noobj : forall parts,
             existsb (jsstring_eqb (lit "objects")) parts = false ->
             ~ In (lit "objects") parts).
  { intros parts H Hin. apply not_true_iff_false in H. apply H.
    apply existsb_exists. exists (lit "objects"). split; [assumption|].
    now apply jsstring_eqb_eq. }
  split; [|split].
  - refine (Hfound [[]; lit "repo"; lit ".git"] (lit "ab") (lit "cdef") []
                   _ _); [apply nosep | apply noobj]; reflexivity.
  - refine (Hshort [[]; lit "repo"; lit ".git"] [lit "ab"] _ _ (le_n 2));
      [apply nosep | apply noobj]; reflexivity.
  - refine (Habsent [[]; lit "repo"; lit "README.md"] _ _ _);
      [discriminate | apply nosep; reflexivity | apply noobj; reflexivity].
Defined.

Lemma substring_prefix (label file : jsstring) :
  List.length label = 2%nat ->
  substring (label ++ file) 0 2 = label
  /\ substringFrom (label ++ file) 2 = file.
Proof.
  intros H. unfold substring, substringFrom. cbn [Nat.max Nat.min Nat.sub].
  split.
  - change (skipn 0 (label ++ file)) with (label ++ file).
    now apply LineFacts.firstn_exact.
  - now apply LineFacts.skipn_exact.
Qed.

(** X9.  The hash a tree item passes to the command leads the content
    provider to the file the item was read from: for a directory label
    of two characters that does not start with a slash, the path located
    for the hash [label ++ file], with or without a leading slash, is the
    path the tree view decoded, whenever joining the objects directory,
    the label and the file name in two steps gives the path that joining
    the three at once gives. *)
Theorem tree_item_opens_the_file_it_was_read_from h root label file :
  path_join h [path_join h [path_join h [root; lit ".git"; lit "objects"];
                            label];
               file]
  = path_join h [path_join h [root; lit ".git"; lit "objects"]; label; file] ->
  truthy root = true ->
  List.length label = 2%nat -> startsWithSlash label = false ->
  exists gitObjectsPath,
    GitObjectTreeDataProvider.gitObjectsPath
      (GitObjectTreeDataProvider.constructor h (Some root))
    = Some gitObjectsPath
    /\ (forall o,
           parseGitObjectAt h
             (path_join h [path_join h [gitObjectsPath; label]; file])
           = Resolved o ->
           option_map TreeItem.arguments
             (TreeItem.command
                (snd (GitObjectTreeDataProvider.fileItem h
                        (path_join h [gitObjectsPath; label]) label file)))
           = Some [label ++ file])
    /\ locate h (constructor h root)
         {| Uri.scheme := lit "git-object"; Uri.path := label ++ file |}
       = (path_join h [path_join h [gitObjectsPath; label]; file],
          label ++ file)
    /\ locate h (constructor h root)
         {| Uri.scheme := lit "git-object";
            Uri.path := SLASH :: label ++ file |}
       = (path_join h [path_join h [gitObjectsPath; label]; file],
          label ++ file).
Proof.
  intros Hjoin Hroot Hlabel Hslash.
  exists (path_join h [root; lit ".git"; lit "objects"]).
  destruct (substring_prefix label file Hlabel) as [Hdir Hfile].
  assert (Hs : startsWithSlash (label ++ file) = false).
  { destruct label as [|c label]; [discriminate Hlabel | exact Hslash]. }
  split; [|split; [|split]].
  - cbn [GitObjectTreeDataProvider.constructor
           GitObjectTreeDataProvider.gitObjectsPath]. now rewrite Hroot.
  - intros o Ho. unfold GitObjectTreeDataProvider.fileItem. now rewrite Ho.
  - unfold locate, hashOfUriPath.
    cbn [Uri.scheme Uri.path constructor gitObjectsPath].
    change (jsstring_eqb (lit "git-object") (lit "git-object-file"))
      with false. cbv iota.
    rewrite Hs, Hdir, Hfile, Hjoin. reflexivity.
  - unfold locate, hashOfUriPath.
    cbn [Uri.scheme Uri.path constructor gitObjectsPath].
    change (jsstring_eqb (lit "git-object") (lit "git-object-file"))
      with false. cbv iota.
    change (startsWithSlash (SLASH :: label ++ file)) with true. cbv iota.
    change (substringFrom (SLASH :: label ++ file) 1) with (label ++ file).
    rewrite Hdir, Hfile, Hjoin. reflexivity.
Qed.

(** The object [ab/cdef] of the sample repository. *)
Lemma tree_item_opens_the_file_it_was_read_from_witness :
  path_join sampleHost
    [path_join sampleHost
       [path_join sampleHost [lit "/repo"; lit ".git"; lit "objects"];
        lit "ab"];
     lit "cdef"]
  = path_join sampleHost
      [path_join sampleHost [lit "/repo"; lit ".git"; lit "objects"];
       lit "ab"; lit "cdef"]
  /\ truthy (lit "/repo") = true
  /\ List.length (lit "ab") = 2%nat /\ startsWithSlash (lit "ab") = false
  /\ locate sampleHost (constructor sampleHost (lit "/repo"))
       {| Uri.scheme := lit "git-object"; Uri.path := lit "abcdef" |}
     = (lit "/repo/.git/objects/ab/cdef", lit "abcdef").
Proof.
  split; [reflexivity | split; [reflexivity | split; [reflexivity|]]].
  split; [reflexivity|].
  destruct (tree_item_opens_the_file_it_was_read_from sampleHost (lit "/repo")
              (lit "ab") (lit "cdef") eq_refl eq_refl eq_refl eq_refl)
    as (gop & Hgop & _ & Hloc & _).
  injection Hgop as <-. exact Hloc.
Defined.

(** X10.  The root of the tree view lists the directories whose name has
    two characters, in the order of the directory listing, as collapsed
    items; and each of these items, given back as the element to expand,
    leads to the listing of its own directory, never to the empty
    answer. *)
Theorem root_items_are_the_two_character_directories h this gop entries :
  GitObjectTreeDataProvider.gitObjectsPath this = Some gop ->
  truthy gop = true -> fs_existsSync h gop = true ->
  fs_readdirSync_withFileTypes h gop = inr entries ->
  exists items,
    GitObjectTreeDataProvider.getChildren h this None = ([], Resolved items)
    /\ map TreeItem.label items
       = map Dirent.name
           (filter (fun entry =>
                      Dirent.isDirectory entry
                      && Nat.eqb (List.length (Dirent.name entry)) 2)
                   entries)
    /\ Forall
         (fun item =>
            TreeItem.collapsibleState item = TreeItem.Collapsed
            /\ List.length (TreeItem.label item) = 2%nat
            /\ GitObjectTreeDataProvider.getChildren h this (Some item)
               = match fs_readdirSync h (path_join h [gop; TreeItem.label item])
                 with
                 | inl thrown => ([], Rejected thrown)
                 | inr files =>
                   (flat_map fst
                      (map (GitObjectTreeDataProvider.fileItem h
                              (path_join h [gop; TreeItem.label item])
                              (TreeItem.label item)) files),
                    Resolved
                      (map snd
                         (map (GitObjectTreeDataProvider.fileItem h
                                 (path_join h [gop; TreeItem.label item])
                                 (TreeItem.label item)) files)))
                 end)
         items.
Proof.
  intros Hgop Htruthy Hexists Hread.
  unfold GitObjectTreeDataProvider.getChildren.
  rewrite Hgop, Htruthy, Hexists, Hread. cbn [negb orb].
  eexists. split; [reflexivity|]. split.
  - rewrite map_map. reflexivity.
  - apply Forall_map. apply Forall_forall. intros entry Hin.
    apply filter_In in Hin as [_ Hin]. apply andb_prop in Hin as [_ Hlen].
    apply Nat.eqb_eq in Hlen. cbn [TreeItem.new TreeItem.label
                                   TreeItem.collapsibleState].
    split; [reflexivity | split; [assumption|]].
    rewrite Hlen. cbn [Nat.eqb]. rewrite andb_true_r.
    destruct (Dirent.name entry) as [|c s]; [discriminate Hlen|].
    reflexivity.
Qed.

(** The root of the sample repository: [ab] and nothing else. *)
Lemma root_items_are_the_two_character_directories_witness :
  GitObjectTreeDataProvider.gitObjectsPath
    (GitObjectTreeDataProvider.constructor sampleHost (Some (lit "/repo")))
  = Some sampleObjects
  /\ truthy sampleObjects = true
  /\ fs_existsSync sampleHost sampleObjects = true
  /\ exists items,
       GitObjectTreeDataProvider.getChildren sampleHost
         (GitObjectTreeDataProvider.constructor sampleHost (Some (lit "/repo")))
         None
       = ([], Resolved items)
       /\ map TreeItem.label items = [lit "ab"].
Proof.
  split; [reflexivity | split; [reflexivity | split; [reflexivity|]]].
  destruct (root_items_are_the_two_character_directories sampleHost
              (GitObjectTreeDataProvider.constructor sampleHost
                 (Some (lit "/repo")))
              sampleObjects _ eq_refl eq_refl eq_refl eq_refl)
    as (items & Hitems & Hlabels & _).
  exists items. split; [exact Hitems | exact Hlabels].
Defined.

(** X11.  The tree has two levels: the item of a file, decoded or not,
    has no children, whatever the host; its label is longer than two
    characters, so expanding it reads no directory. *)
Theorem file_items_have_no_children h h' this subDir dirLabel file :
  (2 < List.length
         (TreeItem.label
            (snd (GitObjectTreeDataProvider.fileItem h subDir dirLabel file))))
  %nat
  /\ GitObjectTreeDataProvider.getChildren h' this
       (Some (snd (GitObjectTreeDataProvider.fileItem h subDir dirLabel file)))
     = ([], Resolved []).
Proof.
  assert (Hlen : (2 < List.length
                        (TreeItem.label
                           (snd (GitObjectTreeDataProvider.fileItem
                                   h subDir dirLabel file))))%nat).
  { unfold GitObjectTreeDataProvider.fileItem.
    destruct (parseGitObjectAt h _) as [o | error];
      cbn [snd TreeItem.label TreeItem.new];
      rewrite !List.length_app; cbn [lit List.length]; lia. }
  split; [exact Hlen|].
  unfold GitObjectTreeDataProvider.getChildren.
  destruct (GitObjectTreeDataProvider.gitObjectsPath this) as [gop|];
    [|reflexivity].
  destruct (negb (truthy gop) || negb (fs_existsSync h' gop));
    [reflexivity|].
  replace (Nat.eqb _ 2) with false; [now rewrite andb_false_r|].
  symmetry. apply Nat.eqb_neq. lia.
Qed.

(** X12.  A directory of objects gives one item per file, in the order of
    the files, and the promise resolves whether or not the files decode:
    a file that decodes gets a label with the start of its name, its type
    and the number of bytes of its content, and carries the hash made of
    the directory label and the file name; a file that does not decode
    gets the label of its name followed by [" (Error)"] and no command. *)
Theorem one_item_per_file h this gop element files :
  GitObjectTreeDataProvider.gitObjectsPath this = Some gop ->
  truthy gop = true -> fs_existsSync h gop = true ->
  List.length (TreeItem.label element) = 2%nat ->
  fs_readdirSync h (path_join h [gop; TreeItem.label element]) = inr files ->
  exists items,
    snd (GitObjectTreeDataProvider.getChildren h this (Some element))
    = Resolved items
    /\ Forall2
         (fun file item =>
            match parseGitObjectAt h
                    (path_join h [path_join h [gop; TreeItem.label element];
                                  file])
            with
            | Resolved o =>
              TreeItem.label item
              = substring file 0 10 ++ lit "... (" ++ type o ++ lit ", "
                ++ decimal (List.length (content o)) ++ lit "b)"
              /\ TreeItem.description item
                 = Some (TreeItem.label element ++ file)
              /\ option_map TreeItem.arguments (TreeItem.command item)
                 = Some [TreeItem.label element ++ file]
            | Rejected _ =>
              TreeItem.label item = file ++ lit " (Error)"
              /\ TreeItem.command item = None
            end)
         files items.
Proof.
  intros Hgop Htruthy Hexists Hlabel Hread.
  unfold GitObjectTreeDataProvider.getChildren.
  rewrite Hgop, Htruthy, Hexists, Hlabel. cbn [negb orb Nat.eqb].
  replace (truthy (TreeItem.label element)) with true
    by (destruct (TreeItem.label element); [discriminate Hlabel | reflexivity]).
  cbn [andb]. rewrite Hread. cbn [snd].
  eexists. split; [reflexivity|].
  clear Hread. induction files as [|file files IH]; cbn [map]; constructor;
    [|exact IH].
  unfold GitObjectTreeDataProvider.fileItem.
  destruct (parseGitObjectAt h _) as [o | error] eqn:Ho.
  - cbn [snd TreeItem.label TreeItem.description TreeItem.command
           option_map TreeItem.arguments].
    rewrite (parseGitObjectAt_resolved _ _ _ Ho), numberToString_length.
    auto.
  - cbn [snd TreeItem.new TreeItem.label TreeItem.command]. auto.
Qed.

(** The directory [ab] of the sample repository: a blob of 5 bytes and a
    file that cannot be read. *)
Lemma one_item_per_file_witness :
  exists items,
    snd (GitObjectTreeDataProvider.getChildren sampleHost
           (GitObjectTreeDataProvider.constructor sampleHost
              (Some (lit "/repo")))
           (Some (TreeItem.new (lit "ab") TreeItem.Collapsed)))
    = Resolved items
    /\ map TreeItem.label items
       = [lit "cdef... (blob, 5b)"; lit "bad (Error)"].
Proof.
  destruct (one_item_per_file sampleHost
              (GitObjectTreeDataProvider.constructor sampleHost
                 (Some (lit "/repo")))
              sampleObjects (TreeItem.new (lit "ab") TreeItem.Collapsed)
              [lit "cdef"; lit "bad"] eq_refl eq_refl eq_refl eq_refl eq_refl)
    as (items & Hitems & _).
  exists items. split; [exact Hitems|].
  cbv in Hitems. injection Hitems as <-. reflexivity.
Defined.

(** X13.  The document of an object that decodes shows the type, the
    number of bytes of the content as size, never [NaN], the hash, and
    then, for the type ["tree"], the lines of the entries the loop reads
    from the content, and for any other type the content as text. *)
Theorem document_of_a_decoded_object h this uri o :
  fs_existsSync h (fst (locate h this uri)) = true ->
  parseGitObjectAt h (fst (locate h this uri)) = Resolved o ->
  exists body,
    snd (provideTextDocumentContent h this uri)
    = Some (lit "Object Type: " ++ type o ++ [LF]
            ++ lit "Size: " ++ decimal (List.length (content o))
            ++ lit " bytes" ++ [LF]
            ++ lit "Hash: " ++ snd (locate h this uri) ++ [LF; LF] ++ body)
    /\ (type o = lit "tree" ->
        exists entries,
          treeEntries (content o) = Some entries
          /\ body = join [LF] (map entryLine entries))
    /\ (type o <> lit "tree" -> body = toString (content o)).
Proof.
  intros Hexists Hparse. unfold provideTextDocumentContent.
  destruct (locate h this uri) as [objectPath hash]. cbn [fst snd] in *.
  rewrite Hexists, Hparse. cbn [negb snd]. unfold render.
  rewrite (parseGitObjectAt_resolved _ _ _ Hparse), numberToString_length.
  destruct (jsstring_eqb (type o) (lit "tree")) eqn:E.
  - destruct (WhileFacts.treeEntries_total (content o)) as (entries & He).
    rewrite (Extras.parseTreeObject_lines _ _ He).
    eexists. split; [reflexivity|]. split.
    + intros _. now exists entries.
    + intros Hne. apply jsstring_eqb_eq in E. contradiction.
  - eexists. split; [reflexivity|]. split.
    + intros Ht. rewrite Ht in E. discriminate E.
    + reflexivity.
Qed.

(** The blob [ab/cdef] of the sample repository, opened from the tree
    view. *)
Lemma document_of_a_decoded_object_witness :
  snd (provideTextDocumentContent sampleHost
         (constructor sampleHost (lit "/repo"))
         {| Uri.scheme := lit "git-object"; Uri.path := lit "abcdef" |})
  = Some (lit "Object Type: blob" ++ [LF] ++ lit "Size: 5 bytes" ++ [LF]
          ++ lit "Hash: abcdef" ++ [LF; LF] ++ lit "hello").
Proof.
  destruct (document_of_a_decoded_object sampleHost
              (constructor sampleHost (lit "/repo"))
              {| Uri.scheme := lit "git-object"; Uri.path := lit "abcdef" |}
              {| type := lit "blob"; size := Num 5; content := hello |}
              eq_refl eq_refl)
    as (body & Hdoc & _ & Hbody).
  rewrite Hdoc, Hbody by discriminate. reflexivity.
Defined.

(** X14.  A file that is no Git object does not make the provider fail:
    when the decompressed bytes hold no zero byte the document is the
    error text with the message ["Invalid Git object format"], and when
    the size read from the header is not the length of the payload it is
    the error text with the message ["Size mismatch"]. *)
Theorem undecodable_object_gives_an_error_document h this uri compressed d :
  fs_existsSync h (fst (locate h this uri)) = true ->
  fs_readFile h (fst (locate h this uri)) = inr compressed ->
  zlib_inflate h compressed = inr d ->
  (~ In x00 d ->
   snd (provideTextDocumentContent h this uri)
   = Some (lit "Error reading object: Invalid Git object format"
           ++ [LF; LF] ++ lit "Stack: " ++ error_stack h invalidFormat))
  /\ (forall hdr payload,
         d = hdr ++ x00 :: payload -> ~ In x00 hdr ->
         parseInt (sizeToken (toString hdr)) <> Num (Buffer.length payload) ->
         snd (provideTextDocumentContent h this uri)
         = Some (lit "Error reading object: Size mismatch"
                 ++ [LF; LF] ++ lit "Stack: " ++ error_stack h sizeMismatch)).
Proof.
  intros Hexists Hread Hinf. unfold provideTextDocumentContent.
  destruct (locate h this uri) as [objectPath hash]. cbn [fst snd] in *.
  rewrite Hexists. cbn [negb]. unfold parseGitObjectAt, readFileCallback.
  rewrite Hread, Hinf. split.
  - intros Hz. rewrite inflateCallback_no_zero by assumption. reflexivity.
  - intros hdr payload -> Hz Hs. rewrite inflateCallback_layout by assumption.
    rewrite checked_rejected by assumption. reflexivity.
Qed.

(** Files holding ["hello"] alone, and ["blob 4\0hello"]. *)
Lemma undecodable_object_gives_an_error_document_witness :
  snd (provideTextDocumentContent (plainHost hello)
         (constructor (plainHost hello) (lit "/repo"))
         {| Uri.scheme := lit "git-object"; Uri.path := lit "abcdef" |})
  = Some (lit "Error reading object: Invalid Git object format"
          ++ [LF; LF] ++ lit "Stack: at parseGitObject")
  /\ snd (provideTextDocumentContent (plainHost blob4hello)
            (constructor (plainHost blob4hello) (lit "/repo"))
            {| Uri.scheme := lit "git-object"; Uri.path := lit "abcdef" |})
     = Some (lit "Error reading object: Size mismatch"
             ++ [LF; LF] ++ lit "Stack: at parseGitObject").
Proof.
  split.
  - refine (proj1 (undecodable_object_gives_an_error_document
                     (plainHost hello)
                     (constructor (plainHost hello) (lit "/repo"))
                     {| Uri.scheme := lit "git-object";
                        Uri.path := lit "abcdef" |}
                     hello hello eq_refl eq_refl eq_refl) _).
    apply absent. reflexivity.
  - refine (proj2 (undecodable_object_gives_an_error_document
                     (plainHost blob4hello)
                     (constructor (plainHost blob4hello) (lit "/repo"))
                     {| Uri.scheme := lit "git-object";
                        Uri.path := lit "abcdef" |}
                     blob4hello blob4hello eq_refl eq_refl eq_refl)
                  (ascii_bytes "blob 4") hello eq_refl _ _).
    + apply absent. reflexivity.
    + vm_compute. discriminate.
Defined.

End ProviderExtras.

(** ** From the file to the document *)

Module EndToEnd.
Import DecoderFacts StringFacts TextFacts ProviderFacts LooseFacts.
Import WhileFacts EntryFacts.
Import GitObjectContentProvider.

(** X15.  An object written in the loose format is shown in full: when
    the file located for the URI exists and inflates to such an object,
    the document is the type, the number of bytes of the payload, the
    hash and then, for the type ["tree"] and a payload of well-formed
    entries, one line per entry, and for any other type the payload as
    text. *)
Theorem loose_object_is_shown h this uri compressed typeBytes payload :
  fs_existsSync h (fst (locate h this uri)) = true ->
  fs_readFile h (fst (locate h this uri)) = inr compressed ->
  zlib_inflate h compressed = inr (looseObject typeBytes payload) ->
  ~ In x20 typeBytes -> ~ In x00 typeBytes ->
  (forall rs t,
      toString typeBytes = lit "tree" ->
      payload = encodeAll rs ++ t -> Forall wellFormed rs -> Truncated t ->
      snd (provideTextDocumentContent h this uri)
      = Some (lit "Object Type: tree" ++ [LF]
              ++ lit "Size: " ++ decimal (List.length payload)
              ++ lit " bytes" ++ [LF]
              ++ lit "Hash: " ++ snd (locate h this uri) ++ [LF; LF]
              ++ join [LF] (map entryLine (map entryOf rs))))
  /\ (toString typeBytes <> lit "tree" ->
      snd (provideTextDocumentContent h this uri)
      = Some (lit "Object Type: " ++ toString typeBytes ++ [LF]
              ++ lit "Size: " ++ decimal (List.length payload)
              ++ lit " bytes" ++ [LF]
              ++ lit "Hash: " ++ snd (locate h this uri) ++ [LF; LF]
              ++ toString payload)).
Proof.
  intros Hexists Hread Hinf Hs Hz. unfold provideTextDocumentContent.
  destruct (locate h this uri) as [objectPath hash]. cbn [fst snd] in *.
  assert (Hparse : parseGitObjectAt h objectPath
                   = Resolved {| type := toString typeBytes;
                                 size := Num (Buffer.length payload);
                                 content := payload |}).
  { unfold parseGitObjectAt, readFileCallback. rewrite Hread, Hinf.
    apply (inflateCallback_loose typeBytes payload []); auto. }
  rewrite Hexists, Hparse. cbn [negb snd]. unfold render. cbn [type size content].
  rewrite numberToString_length. split.
  - intros rs t Hty -> Hwf Ht. rewrite Hty.
    change (jsstring_eqb (lit "tree") (lit "tree")) with true. cbv iota.
    rewrite (Extras.parseTreeObject_lines _ (map entryOf rs))
      by now apply treeEntries_encodeAll.
    reflexivity.
  - intros Hty.
    rewrite jsstring_eqb_neq by assumption. reflexivity.
Qed.

(** A tree with the sample entry, stored uncompressed. *)
Lemma loose_object_is_shown_witness :
  snd (provideTextDocumentContent
         (plainHost (looseObject (ascii_bytes "tree") (encode helloEntry)))
         (constructor sampleHost (lit "/repo"))
         {| Uri.scheme := lit "git-object"; Uri.path := lit "abcdef" |})
  = Some (lit "Object Type: tree" ++ [LF] ++ lit "Size: 37 bytes" ++ [LF]
          ++ lit "Hash: abcdef" ++ [LF; LF]
          ++ lit "100644 blob                 000102030405060708090a0b0c0d0e0f10111213    hello.txt").
Proof.
  refine (proj1 (loose_object_is_shown
                   (plainHost (looseObject (ascii_bytes "tree")
                                           (encode helloEntry)))
                   (constructor sampleHost (lit "/repo"))
                   {| Uri.scheme := lit "git-object";
                      Uri.path := lit "abcdef" |}
                   (looseObject (ascii_bytes "tree") (encode helloEntry))
                   (ascii_bytes "tree") (encode helloEntry)
                   eq_refl eq_refl eq_refl _ _)
                [helloEntry] [] eq_refl eq_refl _ _).
  - apply absent. reflexivity.
  - apply absent. reflexivity.
  - constructor; [apply helloEntry_wellFormed | constructor].
  - apply no_space. intros [].
Defined.



(** X17.  What follows the size in the header is ignored: a header made
    of the type, a space, the payload length in decimal digits, a space
    and any bytes without zero byte decodes as if it ended at the
    length. *)
Theorem tokens_after_the_size_are_ignored typeBytes junk payload :
  ~ In x20 typeBytes -> ~ In x00 typeBytes -> ~ In x00 junk ->
  inflateCallback
    (inr (typeBytes ++ x20 :: ofAscii (decimal (List.length payload))
          ++ (x20 :: junk) ++ x00 :: payload))
  = Resolved {| type := toString typeBytes;
                size := Num (Buffer.length payload);
                content := payload |}.
Proof.
  intros Hs Hz Hj. apply inflateCallback_loose; auto.
  - intros [H | H]; [discriminate | contradiction].
  - right. now exists junk.
Qed.

(** The header ["blob 5 and more"]. *)
Lemma tokens_after_the_size_are_ignored_witness :
  inflateCallback
    (inr (ascii_bytes "blob 5 and more" ++ x00 :: hello))
  = Resolved {| type := lit "blob"; size := Num 5; content := hello |}.
Proof.
  exact (tokens_after_the_size_are_ignored (ascii_bytes "blob")
           (ascii_bytes "and more") hello
           (absent x20 (ascii_bytes "blob") eq_refl)
           (absent x00 (ascii_bytes "blob") eq_refl)
           (absent x00 (ascii_bytes "and more") eq_refl)).
Defined.

(** X18.  Every entry of the array stands for at least 22 bytes of the
    payload: a payload of n bytes gives at most n / 22 entries. *)
Theorem entries_take_22_bytes_each content entries :
  treeEntries content = Some entries ->
  (22 * List.length entries <= List.length content)%nat.
Proof.
  intros He.
  destruct (payload_shape (List.length content) content (le_n _))
    as (rs & t & -> & Hwf & Ht).
  rewrite treeEntries_encodeAll in He by assumption.
  injection He as <-. rewrite length_map, List.length_app.
  pose proof (length_encodeAll_wellFormed rs Hwf). lia.
Qed.

(** The sample entry and five stray bytes: 42 bytes, one entry. *)
Lemma entries_take_22_bytes_each_witness :
  treeEntries (encode helloEntry ++ ascii_bytes "12 45")
  = Some [entryOf helloEntry]
  /\ (22 * List.length [entryOf helloEntry]
      <= List.length (encode helloEntry ++ ascii_bytes "12 45"))%nat.
Proof.
  split; [reflexivity|].
  exact (entries_take_22_bytes_each (encode helloEntry ++ ascii_bytes "12 45")
           [entryOf helloEntry] eq_refl).
Defined.

End EndToEnd.
